(** * Script2.py: commit graph extraction from a git object store

    A shallow embedding of [src/Script2.py] and the properties of its four
    functions [read_git_object], [get_commit_data], [get_commit_graph] and
    [generate_plantuml_graph].

    Conventions of the embedding:
    - a Python [str] is a list of Unicode code points ([N]); a [bytes] value
      is a list of [Byte.byte];
    - a raised exception is the [Raise] branch of [result];
    - the file system is a finite map from path strings to nodes (regular
      file with its content, or directory);
    - [zlib.decompress] and [bytes.decode("utf-8")] are library code: they are
      the two methods of the class [Codec];
    - every call of [read_git_object] is recorded in a call log, threaded
      through the functions that reach it;
    - a Python [dict] is an association list in insertion order, a Python
      [list] a Rocq list in the same order. *)

From Stdlib Require Import String Ascii NArith ZArith Lia.
From stdpp Require Import base option list gmap sets.

Set Default Proof Using "Type".

(** ** Python strings *)

Abbreviation char := N.
Definition str := list char.
Definition bytes := list Byte.byte.

#[global] Instance byte_eq_decision : EqDecision Byte.byte := Byte.byte_eq_dec.

(** A Python string literal (ASCII only). *)
Definition py (s : string) : str := N_of_ascii <$> list_ascii_of_string s.

Definition LF : char := 10%N.      (* "\n" *)
Definition SP : char := 32%N.      (* " "  *)
Definition DQUOTE : char := 34%N.  (* the double quote *)
Definition SLASH : char := 47%N.   (* "/"  *)

(** [str.isspace] on one code point, the set [str.strip()] and [str.split()]
    use when called without arguments. *)
Definition isspace (c : char) : bool :=
  ((9 <=? c) && (c <=? 13) || (28 <=? c) && (c <=? 32)
   || (c =? 133) || (c =? 160) || (c =? 5760)
   || (8192 <=? c) && (c <=? 8202)
   || (c =? 8232) || (c =? 8233) || (c =? 8239) || (c =? 8287)
   || (c =? 12288))%N.

(** [s.startswith(prefix)] *)
Fixpoint str_startswith (s prefix : str) {struct prefix} : bool :=
  match prefix, s with
  | [], _ => true
  | _ :: _, [] => false
  | p :: prefix', c :: s' => (c =? p)%N && str_startswith s' prefix'
  end.

(** [s.endswith(suffix)] *)
Definition str_endswith (s suffix : str) : bool :=
  str_startswith (rev s) (rev suffix).

(** [s.split(sep)] for a separator of one character: the pieces between the
    occurrences of [sep], empty pieces included; never the empty list. *)
Fixpoint str_split (sep : char) (s : str) : list str :=
  match s with
  | [] => [[]]
  | c :: s' =>
      if (c =? sep)%N then [] :: str_split sep s'
      else match str_split sep s' with
           | piece :: pieces => (c :: piece) :: pieces
           | [] => [[c]]
           end
  end.

(** [s.split()]: the maximal runs of non-whitespace characters; [word] is the
    run being read. *)
Fixpoint str_split_ws_from (word s : str) : list str :=
  match s with
  | [] => match word with [] => [] | _ => [word] end
  | c :: s' =>
      if isspace c
      then match word with
           | [] => str_split_ws_from [] s'
           | _ => word :: str_split_ws_from [] s'
           end
      else str_split_ws_from (word ++ [c]) s'
  end.

Definition str_split_ws (s : str) : list str := str_split_ws_from [] s.

(** [sep.join(pieces)] *)
Fixpoint str_join (sep : str) (pieces : list str) : str :=
  match pieces with
  | [] => []
  | [piece] => piece
  | piece :: rest => piece ++ sep ++ str_join sep rest
  end.

Fixpoint str_lstrip (s : str) : str :=
  match s with
  | [] => []
  | c :: s' => if isspace c then str_lstrip s' else s
  end.

Definition str_rstrip (s : str) : str := rev (str_lstrip (rev s)).

(** [s.strip()]: whitespace removed at both ends. *)
Definition str_strip (s : str) : str := str_rstrip (str_lstrip s).

(** ** Exceptions *)

Inductive exn : Type :=
  | FileNotFoundError (msg : str)   (* the spec's ObjectNotFound *)
  | IsADirectoryError               (* [open] on a directory *)
  | ZlibError                       (* [zlib.error], the spec's CorruptObject *)
  | UnicodeDecodeError              (* the spec's DecodeError *)
  | IndexError.

Inductive result (A : Type) : Type :=
  | Ok (a : A)
  | Raise (e : exn).
Arguments Ok {A} a.
Arguments Raise {A} e.

Definition result_bind {A B} (r : result A) (k : A → result B) : result B :=
  match r with
  | Ok a => k a
  | Raise e => Raise e
  end.

(** ** get_commit_data, lines 29 to 42: the decoding of the commit text *)

Record commit_scan : Type := CommitScan {
  parents : list str;
  message : str;
  is_message : bool
}.

(** One pass of the body of [for line in lines]. *)
Definition scan_line (st : commit_scan) (line : str) : result commit_scan :=
  if is_message st then
    Ok (CommitScan (parents st) (message st ++ line ++ [LF]) true)
  else if str_startswith line (py "parent ") then
    match str_split SP line !! 1%nat with
    | Some parent => Ok (CommitScan (parents st ++ [parent]) (message st) false)
    | None => Raise IndexError
    end
  else if decide (line = []) then
    Ok (CommitScan (parents st) (message st) true)
  else Ok st.

Fixpoint scan_lines (st : commit_scan) (lines : list str) : result commit_scan :=
  match lines with
  | [] => Ok st
  | line :: rest => result_bind (scan_line st line) (λ st', scan_lines st' rest)
  end.

(** What [get_commit_data] computes from the text [read_git_object] returned. *)
Definition parse_commit_data (commit_data : str) : result (list str * str) :=
  let lines := str_split LF commit_data in
  result_bind (scan_lines (CommitScan [] [] false) lines)
    (λ st, Ok (parents st, str_strip (message st))).

(** ** The file system and the library calls *)

Inductive node : Type :=
  | File (content : bytes)
  | Dir.

(** What the operating system finds at a path string: a regular file with its
    content, a directory, or nothing. The map is read by the path string as
    the program spells it, so a directory that is also reached with a final
    slash is listed under that spelling too. *)
Abbreviation filesystem := (gmap (list N) node).

(** [zlib.decompress] and [bytes.decode("utf-8")]; [None] when the library
    raises ([zlib.error], [UnicodeDecodeError]). *)
Class Codec : Type := {
  zlib_decompress : bytes → option bytes;
  decode_utf8 : bytes → option str
}.

(** [os.path.join] of posixpath, one component at a time. *)
Definition path_join2 (path b : str) : str :=
  if str_startswith b [SLASH] then b
  else if bool_decide (path = []) || str_endswith path [SLASH] then path ++ b
  else path ++ [SLASH] ++ b.

Definition os_path_join (a : str) (p : list str) : str := foldl path_join2 a p.

(** [os.path.exists] *)
Definition os_path_exists (fs : filesystem) (path : str) : bool :=
  bool_decide (is_Some (fs !! path)).

(** [open(path, "rb")] followed by [file.read()] *)
Definition read_binary (fs : filesystem) (path : str) : result bytes :=
  match fs !! path with
  | Some (File content) => Ok content
  | Some Dir => Raise IsADirectoryError
  | None => Raise (FileNotFoundError path)
  end.

(** ** Computations that record the calls of read_git_object *)

(** The identifiers [read_git_object] was called with, oldest first. *)
Definition call_log := list str.

Definition M (A : Type) : Type := call_log → result A * call_log.

Definition ret {A} (a : A) : M A := λ calls, (Ok a, calls).
Definition raise {A} (e : exn) : M A := λ calls, (Raise e, calls).
Definition lift {A} (r : result A) : M A := λ calls, (r, calls).
Definition bind {A B} (m : M A) (k : A → M B) : M B :=
  λ calls,
    match m calls with
    | (Ok a, calls') => k a calls'
    | (Raise e, calls') => (Raise e, calls')
    end.
Definition record_call (object_hash : str) : M unit :=
  λ calls, (Ok tt, calls ++ [object_hash]).

#[global] Instance M_ret : MRet M := @ret.
#[global] Instance M_bind : MBind M := λ A B k m, bind m k.

(** ** read_git_object, lines 10 to 23 *)

Definition object_file (repo_path object_hash : str) : str :=
  let object_dir :=
    os_path_join repo_path [py ".git"; py "objects"; take 2 object_hash] in
  os_path_join object_dir [drop 2 object_hash].

Definition read_git_object `{Codec} (fs : filesystem)
    (repo_path object_hash : str) : M str :=
  record_call object_hash;;
  let object_file := object_file repo_path object_hash in
  if negb (os_path_exists fs object_file) then
    raise (FileNotFoundError
             (py "Git object " ++ object_hash ++ py " not found"))
  else
    compressed_data ← lift (read_binary fs object_file);
    match zlib_decompress compressed_data with
    | None => raise ZlibError
    | Some decompressed_data =>
        match decode_utf8 decompressed_data with
        | None => raise UnicodeDecodeError
        | Some text => ret text
        end
    end.

(** ** get_commit_data, lines 26 to 42 *)

Definition get_commit_data `{Codec} (fs : filesystem)
    (repo_path commit_hash : str) : M (list str * str) :=
  commit_data ← read_git_object fs repo_path commit_hash;
  lift (parse_commit_data commit_data).

(** ** get_commit_graph, lines 45 to 57 *)

(** The dict [commit_graph], its items in insertion order. *)
Definition dict := list (str * list str).

(** [key in d] *)
Definition dict_contains (d : dict) (key : str) : bool :=
  bool_decide (key ∈ d.*1).

(** [d[key] = value]: an existing key keeps its place, a new one goes last. *)
Fixpoint dict_set (d : dict) (key : str) (value : list str) : dict :=
  match d with
  | [] => [(key, value)]
  | (k, v) :: d' =>
      if decide (k = key) then (key, value) :: d'
      else (k, v) :: dict_set d' key value
  end.

(** [l.pop()]: the last element and the list without it; [None] when the list
    is empty (the loop never pops then). *)
Definition list_pop {A} (l : list A) : option (A * list A) :=
  match rev l with
  | [] => None
  | x :: r => Some (x, rev r)
  end.

(** The [while stack:] loop. Each unit of [fuel] pays for one pass of the
    body; [None] means the fuel ran out before the loop ended. *)
Fixpoint while_stack `{Codec} (fuel : nat) (fs : filesystem) (repo_path : str)
    (commit_graph : dict) (stack : list str) (calls : call_log)
    : option (result dict * call_log) :=
  match fuel with
  | O => None
  | S fuel' =>
      match list_pop stack with
      | None => Some (Ok commit_graph, calls)
      | Some (current_commit, stack) =>
          if negb (dict_contains commit_graph current_commit) then
            match get_commit_data fs repo_path current_commit calls with
            | (Ok (parents, _), calls) =>
                let commit_graph := dict_set commit_graph current_commit parents in
                let stack := stack ++ parents in
                while_stack fuel' fs repo_path commit_graph stack calls
            | (Raise e, calls) => Some (Raise e, calls)
            end
          else while_stack fuel' fs repo_path commit_graph stack calls
      end
  end.

Definition get_commit_graph `{Codec} (fuel : nat) (fs : filesystem)
    (repo_path starting_commit_hash : str) (calls : call_log)
    : option (result dict * call_log) :=
  while_stack fuel fs repo_path [] [starting_commit_hash] calls.

(** ** generate_plantuml_graph, lines 60 to 76 *)

(** [for parent in parents], lines 67 to 73. *)
Fixpoint for_parents `{Codec} (fs : filesystem) (repo_path commit : str)
    (commit_message : str) (parents : list str) (plantuml_code : str) : M str :=
  match parents with
  | [] => ret plantuml_code
  | parent :: rest =>
      '(_, parent_message) ← get_commit_data fs repo_path parent;
      let parent_message := str_join [] (str_split_ws parent_message) in
      let plantuml_code :=
        plantuml_code ++ (py "participant " ++ parent_message ++ py " as "
                          ++ parent ++ [LF]) in
      let plantuml_code :=
        plantuml_code ++ (py "participant " ++ commit_message ++ py " as "
                          ++ commit ++ [LF]) in
      let plantuml_code :=
        plantuml_code ++ ([DQUOTE] ++ parent ++ [DQUOTE] ++ py " --> "
                          ++ [DQUOTE] ++ commit ++ [DQUOTE] ++ [LF]) in
      for_parents fs repo_path commit commit_message rest plantuml_code
  end.

(** [for commit, parents in commit_graph.items()], lines 63 to 73. *)
Fixpoint for_items `{Codec} (fs : filesystem) (repo_path : str)
    (items : dict) (plantuml_code : str) : M str :=
  match items with
  | [] => ret plantuml_code
  | (commit, parents) :: rest =>
      '(_, commit_message) ← get_commit_data fs repo_path commit;
      let commit_message := str_join [] (str_split_ws commit_message) in
      plantuml_code ←
        for_parents fs repo_path commit commit_message parents plantuml_code;
      for_items fs repo_path rest plantuml_code
  end.

Definition generate_plantuml_graph `{Codec} (commit_graph : dict)
    (fs : filesystem) (repo_path : str) : M str :=
  let plantuml_code := py "@startuml" ++ [LF] in
  plantuml_code ← for_items fs repo_path commit_graph plantuml_code;
  let plantuml_code := plantuml_code ++ py "@enduml" in
  ret plantuml_code.

(** ** A concrete codec and the repositories used as examples *)

Definition byte_of (n : N) : Byte.byte := default Byte.x00 (Byte.of_N n).

(** Adler-32, the checksum that closes a zlib stream. *)
Definition adler32 (data : bytes) : N :=
  let '(a, b) :=
    foldl (λ '(a, b) x,
             let a' := ((a + Byte.to_N x) mod 65521)%N in
             (a', ((b + a') mod 65521)%N))
          (1%N, 0%N) data in
  (b * 65536 + a)%N.

Definition be32 (n : N) : bytes :=
  [byte_of (n / 16777216); byte_of ((n / 65536) mod 256);
   byte_of ((n / 256) mod 256); byte_of (n mod 256)]%N.

(** The largest number of bytes in a stored block. *)
Definition block_max : nat := N.to_nat 65535.

(** The stored (uncompressed) deflate blocks of [data], as
    [zlib.compress(data, 0)] writes them: a header byte with the final-block
    bit, the length and its complement (little endian), then the bytes. *)
Fixpoint stored_blocks (fuel : nat) (data : bytes) : bytes :=
  match fuel with
  | O => []
  | S fuel' =>
      let chunk := take block_max data in
      let rest := drop block_max data in
      let len := N.of_nat (length chunk) in
      let nlen := (65535 - len)%N in
      [byte_of (match rest with [] => 1 | _ => 0 end);
       byte_of (len mod 256); byte_of (len / 256);
       byte_of (nlen mod 256); byte_of (nlen / 256)]%N
      ++ chunk
      ++ match rest with [] => [] | _ => stored_blocks fuel' rest end
  end.

Definition zlib_compress_stored (data : bytes) : bytes :=
  [Byte.x78; Byte.x01] ++ stored_blocks (S (length data)) data
  ++ be32 (adler32 data).

(** The blocks of a deflate stream that has stored blocks only: the data and
    what follows the final block. *)
Fixpoint inflate_stored (fuel : nat) (input : bytes) : option (bytes * bytes) :=
  match fuel with
  | O => None
  | S fuel' =>
      match input with
      | hdr :: l0 :: l1 :: n0 :: n1 :: rest =>
          let len := (Byte.to_N l0 + 256 * Byte.to_N l1)%N in
          let nlen := (Byte.to_N n0 + 256 * Byte.to_N n1)%N in
          if (N.land (Byte.to_N hdr) 6 =? 0)%N && (len + nlen =? 65535)%N
             && (len <=? N.of_nat (length rest))%N
          then
            let chunk := take (N.to_nat len) rest in
            let rest := drop (N.to_nat len) rest in
            if N.odd (Byte.to_N hdr) then Some (chunk, rest)
            else '(out, trailer) ← inflate_stored fuel' rest;
                 Some (chunk ++ out, trailer)
          else None
      | _ => None
      end
  end.

(** [zlib.decompress] restricted to streams of stored blocks. *)
Definition zlib_decompress_stored (input : bytes) : option bytes :=
  match input with
  | cmf :: flg :: rest =>
      if (Byte.to_N cmf =? 120)%N
         && ((Byte.to_N cmf * 256 + Byte.to_N flg) mod 31 =? 0)%N
         && negb (N.testbit (Byte.to_N flg) 5)
      then
        '(out, trailer) ← inflate_stored (length rest) rest;
        if bool_decide (trailer = be32 (adler32 out)) then Some out else None
      else None
  | _ => None
  end.

Definition utf8_encode_char (c : char) : option bytes :=
  if (c <? 128)%N then Some [byte_of c]
  else if (c <? 2048)%N then
    Some [byte_of (192 + c / 64); byte_of (128 + c mod 64)]%N
  else if (55296 <=? c)%N && (c <=? 57343)%N then None
  else if (c <? 65536)%N then
    Some [byte_of (224 + c / 4096); byte_of (128 + (c / 64) mod 64);
          byte_of (128 + c mod 64)]%N
  else if (c <? 1114112)%N then
    Some [byte_of (240 + c / 262144); byte_of (128 + (c / 4096) mod 64);
          byte_of (128 + (c / 64) mod 64); byte_of (128 + c mod 64)]%N
  else None.

(** [text.encode("utf-8")]; [None] on a lone surrogate. *)
Fixpoint utf8_encode (text : str) : option bytes :=
  match text with
  | [] => Some []
  | c :: text' =>
      encoded ← utf8_encode_char c;
      rest ← utf8_encode text';
      Some (encoded ++ rest)
  end.

Definition utf8_cont (c : N) : bool := (128 <=? c)%N && (c <=? 191)%N.

(** [data.decode("utf-8")] *)
Fixpoint utf8_decode (input : bytes) : option str :=
  match input with
  | [] => Some []
  | b0 :: rest =>
      let c0 := Byte.to_N b0 in
      if (c0 <? 128)%N then cons c0 <$> utf8_decode rest
      else if (194 <=? c0)%N && (c0 <=? 223)%N then
        match rest with
        | b1 :: rest =>
            let c1 := Byte.to_N b1 in
            if utf8_cont c1
            then cons ((c0 - 192) * 64 + (c1 - 128))%N <$> utf8_decode rest
            else None
        | _ => None
        end
      else if (224 <=? c0)%N && (c0 <=? 239)%N then
        match rest with
        | b1 :: b2 :: rest =>
            let c1 := Byte.to_N b1 in
            let c2 := Byte.to_N b2 in
            let cp := ((c0 - 224) * 4096 + (c1 - 128) * 64 + (c2 - 128))%N in
            if utf8_cont c1 && utf8_cont c2 && (2048 <=? cp)%N
               && negb ((55296 <=? cp)%N && (cp <=? 57343)%N)
            then cons cp <$> utf8_decode rest
            else None
        | _ => None
        end
      else if (240 <=? c0)%N && (c0 <=? 244)%N then
        match rest with
        | b1 :: b2 :: b3 :: rest =>
            let c1 := Byte.to_N b1 in
            let c2 := Byte.to_N b2 in
            let c3 := Byte.to_N b3 in
            let cp := ((c0 - 240) * 262144 + (c1 - 128) * 4096
                       + (c2 - 128) * 64 + (c3 - 128))%N in
            if utf8_cont c1 && utf8_cont c2 && utf8_cont c3
               && (65536 <=? cp)%N && (cp <=? 1114111)%N
            then cons cp <$> utf8_decode rest
            else None
        | _ => None
        end
      else None
  end.

(** The codec of the examples: UTF-8, and zlib at compression level 0. *)
Definition stored_codec : Codec :=
  {| zlib_decompress := zlib_decompress_stored; decode_utf8 := utf8_decode |}.

(** What the tests' [setUp] writes for one commit: the text encoded,
    compressed, and stored in a file. *)
Definition object_node (text : str) : node :=
  File (zlib_compress_stored (default [] (utf8_encode text))).

(** [text] with a newline after each line. *)
Definition unlines (lines : list str) : str :=
  concat ((λ line, line ++ [LF]) <$> lines).

Module TestRepo.
(** The repository of [test2.py]. *)
Definition repo_dir : str := py "/tmp/repo".
Definition commit_hash : str := py "1234567890abcdef1234567890abcdef12345678".
Definition parent_hash : str := py "fedcba0987654321fedcba0987654321fedcba09".

Definition parent_commit_data : str :=
  unlines
    [py "tree abcdef1234567890abcdef1234567890abcdef12";
     py "author Parent Author <parent@example.com> 1695584200 +0000";
     py "committer Parent Author <parent@example.com> 1695584200 +0000";
     [];
     py "Parent commit"].

Definition commit_data : str :=
  unlines
    [py "tree abcdef1234567890abcdef1234567890abcdef12";
     py "parent " ++ parent_hash;
     py "author Test Author <test@example.com> 1695584200 +0000";
     py "committer Test Author <test@example.com> 1695584200 +0000";
     [];
     py "Initial commit"].

Definition fs : filesystem :=
  <[repo_dir ++ py "/.git/objects/12/34567890abcdef1234567890abcdef12345678"
      := object_node commit_data]>
  (<[repo_dir ++ py "/.git/objects/fe/dcba0987654321fedcba0987654321fedcba09"
      := object_node parent_commit_data]>
  (<[repo_dir ++ py "/.git/objects/12" := Dir]>
  (<[repo_dir ++ py "/.git/objects/12/" := Dir]>
  (<[repo_dir ++ py "/.git/objects/fe" := Dir]>
  (<[repo_dir ++ py "/.git/objects/fe/" := Dir]>
  (<[repo_dir ++ py "/.git/objects" := Dir]>
  (<[repo_dir ++ py "/.git" := Dir]>
  (<[repo_dir := Dir]> ∅)))))))).
End TestRepo.

Module DiamondRepo.
(** A history where two commits share a parent: [top] has the parents
    [left] and [right], and both have the parent [base]. *)
Definition repo_dir : str := py "/srv/diamond".
Definition top : str := py "aa11".
Definition left : str := py "bb22".
Definition right : str := py "cc33".
Definition base : str := py "dd44".

Definition commit_text (parents : list str) (msg : str) : str :=
  unlines ([py "tree 0000"] ++ ((λ p, py "parent " ++ p) <$> parents)
           ++ [py "author A <a@example.com> 0 +0000"; []; msg]).

Definition fs : filesystem :=
  <[object_file repo_dir top := object_node (commit_text [left; right] (py "merge"))]>
  (<[object_file repo_dir left := object_node (commit_text [base] (py "left side"))]>
  (<[object_file repo_dir right := object_node (commit_text [base] (py "right side"))]>
  (<[object_file repo_dir base := object_node (commit_text [] (py "first"))]> ∅))).
End DiamondRepo.


Module CyclicRepo.
(** A malformed store: [ping] names [pong] as its parent and [pong] names
    [ping]. *)
Definition repo_dir : str := py "/srv/cycle".
Definition ping : str := py "0a0a".
Definition pong : str := py "0b0b".

Definition fs : filesystem :=
  <[object_file repo_dir ping
      := object_node (DiamondRepo.commit_text [pong] (py "ping"))]>
  (<[object_file repo_dir pong
      := object_node (DiamondRepo.commit_text [ping] (py "pong"))]> ∅).
End CyclicRepo.

Module RoundTrip.
(** A commit text with a message outside ASCII, and its object file. *)
Definition repo_dir : str := py "/tmp/repo".
Definition object_hash : str := py "abcdef0123".
Definition text : str :=
  py "tree 0000" ++ [LF; LF]
  ++ [1055; 1088; 1080; 1074; 1077; 1090; 32; 8364; 32; 128512]%N ++ [LF].
Definition encoded : bytes := default [] (utf8_encode text).
Definition compressed : bytes := zlib_compress_stored encoded.
End RoundTrip.

(** The diagram of the graph of [test_generate_plantuml_graph]. *)
Definition test_diagram : str :=
  unlines
    [py "@startuml";
     py "participant Parentcommit as " ++ TestRepo.parent_hash;
     py "participant Initialcommit as " ++ TestRepo.commit_hash;
     [DQUOTE] ++ TestRepo.parent_hash ++ [DQUOTE] ++ py " --> "
       ++ [DQUOTE] ++ TestRepo.commit_hash ++ [DQUOTE]]
  ++ py "@enduml".

(** ** Reading the commit text: what the spec calls headers and message *)

(** The characters of [s] before the first [sep] (all of [s] without one). *)
Fixpoint str_until (sep : char) (s : str) : str :=
  match s with
  | [] => []
  | c :: s' => if (c =? sep)%N then [] else c :: str_until sep s'
  end.

(** The second space-separated field of a line that begins with the token
    and one space: what stands between that space and the next one. *)
Definition parent_field (line : str) : str := str_until SP (drop 7 line).

Definition is_parent_line (line : str) : bool :=
  str_startswith line (py "parent ").
Arguments is_parent_line : simpl never.

(** The lines before the first empty line (all of them without one). *)
Fixpoint lines_before_blank (lines : list str) : list str :=
  match lines with
  | [] => []
  | line :: rest =>
      if decide (line = []) then [] else line :: lines_before_blank rest
  end.

(** The lines after the first empty line (none without one). *)
Fixpoint lines_after_blank (lines : list str) : list str :=
  match lines with
  | [] => []
  | line :: rest => if decide (line = []) then rest else lines_after_blank rest
  end.

(** ** Notions used to state the properties *)

(** What [read_git_object] does with the bytes of the object file. *)
Definition decode_object `{Codec} (compressed_data : bytes) : result str :=
  match zlib_decompress compressed_data with
  | None => Raise ZlibError
  | Some decompressed_data =>
      match decode_utf8 decompressed_data with
      | None => Raise UnicodeDecodeError
      | Some text => Ok text
      end
  end.

(** The outcome of [get_commit_data], apart from the call log. *)
Definition commit_result `{Codec} (fs : filesystem)
    (repo_path commit_hash : str) : result (list str * str) :=
  (get_commit_data fs repo_path commit_hash []).1.

(** The parents named by the commit a node of the file system holds. *)
Definition node_parents `{Codec} (n : node) : list str :=
  match n with
  | File content =>
      match result_bind (decode_object content) parse_commit_data with
      | Ok (parents, _) => parents
      | Raise _ => []
      end
  | Dir => []
  end.

(** All the parents named in the object store. *)
Definition stored_parents `{Codec} (fs : filesystem) : list str :=
  map_to_list fs ≫= (λ entry, node_parents entry.2).

(** [s] without its whitespace characters. *)
Definition strip_all (s : str) : str :=
  List.filter (λ c, negb (isspace c)) s.

(** The label of a commit: its decoded message without whitespace. *)
Definition label `{Codec} (fs : filesystem) (repo_path commit_hash : str)
    : str :=
  match commit_result fs repo_path commit_hash with
  | Ok (_, message) => strip_all message
  | Raise _ => []
  end.

(** The three lines written for one edge. *)
Definition edge_text (parent_label commit_label parent commit : str) : str :=
  (py "participant " ++ parent_label ++ py " as " ++ parent ++ [LF])
  ++ (py "participant " ++ commit_label ++ py " as " ++ commit ++ [LF])
  ++ ([DQUOTE] ++ parent ++ [DQUOTE] ++ py " --> "
      ++ [DQUOTE] ++ commit ++ [DQUOTE] ++ [LF]).

(** The (parent, child) pairs of a graph, in the order of its items and of
    their parents. *)
Definition edges (commit_graph : dict) : list (str * str) :=
  commit_graph ≫= (λ item, (λ parent, (parent, item.1)) <$> item.2).

(** The decodes of the renderer: each item's commit, then its parents. *)
Definition decode_order (commit_graph : dict) : list str :=
  commit_graph ≫= (λ item, item.1 :: item.2).

(** The decodes the spec describes for the renderer: the commit and the
    parent, once for each parent of each item. *)
Definition per_parent_decodes (commit_graph : dict) : list str :=
  commit_graph ≫= (λ item, item.2 ≫= (λ parent, [item.1; parent])).

Definition decodes `{Codec} (fs : filesystem) (repo_path commit_hash : str)
    : Prop :=
  ∃ data, commit_result fs repo_path commit_hash = Ok data.

Definition item_decodes `{Codec} (fs : filesystem) (repo_path : str)
    (item : str * list str) : Prop :=
  decodes fs repo_path item.1 ∧ Forall (decodes fs repo_path) item.2.

(** ** Notions used to state further properties *)

(** A header line of a commit object other than a parent line: not empty,
    within one line, and not beginning with the token and a space. *)
Definition header_line (line : str) : Prop :=
  line ≠ [] ∧ (LF ∉ line) ∧ is_parent_line line = false.

(** An identifier without a space or a newline. *)
Definition plain_identifier (identifier : str) : Prop :=
  (SP ∉ identifier) ∧ (LF ∉ identifier).

(** The header line that names a parent. *)
Definition parent_line (parent : str) : str := py "parent " ++ parent.

(** The identifiers met from [start] by following the parents of the commits
    that decode. *)
Inductive reachable `{Codec} (fs : filesystem) (repo_path start : str)
    : str → Prop :=
  | reachable_start : reachable fs repo_path start start
  | reachable_parent h parents message parent :
      reachable fs repo_path start h →
      commit_result fs repo_path h = Ok (parents, message) →
      parent ∈ parents →
      reachable fs repo_path start parent.

(** What the loop of [get_commit_graph] keeps true of its graph and stack:
    the keys are distinct; each value is the decoded parent list of its key;
    keys and stacked identifiers are reachable from [start]; [start] is a key
    or stacked; every parent of a key is a key or stacked. *)
Definition graph_invariant `{Codec} (fs : filesystem) (repo_path start : str)
    (commit_graph : dict) (stack : list str) : Prop :=
  NoDup commit_graph.*1
  ∧ (∀ k ps, (k, ps) ∈ commit_graph →
       ∃ m, commit_result fs repo_path k = Ok (ps, m))
  ∧ (∀ k, k ∈ commit_graph.*1 ∨ k ∈ stack → reachable fs repo_path start k)
  ∧ (start ∈ commit_graph.*1 ∨ start ∈ stack)
  ∧ (∀ k ps p, (k, ps) ∈ commit_graph → p ∈ ps →
       p ∈ commit_graph.*1 ∨ p ∈ stack).

Module ShallowRepo.
(** A partial store: [tip] names the parent [gone], whose object is absent. *)
Definition repo_dir : str := py "/srv/shallow".
Definition tip : str := py "a1b2c3".
Definition gone : str := py "d4e5f6".

Definition fs : filesystem :=
  <[object_file repo_dir tip
      := object_node (DiamondRepo.commit_text [gone] (py "tip"))]> ∅.
End ShallowRepo.

(** * Properties *)

(** ** Strings *)

Lemma str_startswith_app s prefix :
  str_startswith s prefix = true → s = prefix ++ drop (length prefix) s.
Proof.
  revert s. induction prefix as [|p prefix IH]; intros [|c s] H; simpl in *;
    try done.
  apply andb_true_iff in H as [Hc Hs]. apply N.eqb_eq in Hc. subst c.
  f_equal. by apply IH.
Qed.

Lemma str_split_head sep s :
  ∃ pieces, str_split sep s = str_until sep s :: pieces.
Proof.
  induction s as [|c s [pieces IH]]; simpl; [by eexists|].
  destruct (c =? sep)%N; [by eexists|]. rewrite IH. by eexists.
Qed.

Lemma str_split_parent_line line :
  is_parent_line line = true →
  str_split SP line !! 1%nat = Some (parent_field line).
Proof.
  intros H. apply str_startswith_app in H. unfold parent_field.
  change (length (py "parent ")) with 7%nat in H.
  set (rest := drop 7 line) in *. rewrite H. clearbody rest.
  destruct (str_split_head SP rest) as [pieces Hp].
  change (py "parent ") with [112; 97; 114; 101; 110; 116; 32]%N.
  simpl. by rewrite Hp.
Qed.

Lemma str_lstrip_spec s :
  ∃ lead, s = lead ++ str_lstrip s ∧ Forall (λ c, isspace c = true) lead
          ∧ (∀ c, head (str_lstrip s) = Some c → isspace c = false).
Proof.
  induction s as [|c s (lead & Hs & Hl & Hh)]; simpl.
  - exists []. by repeat split.
  - destruct (isspace c) eqn:Hc.
    + exists (c :: lead). repeat split; [by rewrite Hs at 1|by constructor|done].
    + exists []. repeat split; [done|]. simpl. by intros ? [= <-].
Qed.

(** [str_strip] removes whitespace, and only whitespace, at both ends, and
    leaves none at either end. *)
Lemma str_strip_spec s :
  ∃ lead trail,
    s = lead ++ str_strip s ++ trail
    ∧ Forall (λ c, isspace c = true) lead
    ∧ Forall (λ c, isspace c = true) trail
    ∧ (∀ c, head (str_strip s) = Some c → isspace c = false)
    ∧ (∀ c, last (str_strip s) = Some c → isspace c = false).
Proof.
  unfold str_strip, str_rstrip.
  destruct (str_lstrip_spec s) as (lead & Hs & Hlead & Hhead).
  destruct (str_lstrip_spec (rev (str_lstrip s))) as (trail & Hr & Htrail & Hlast).
  set (core := str_lstrip (rev (str_lstrip s))) in *.
  assert (Hmid : str_lstrip s = rev core ++ rev trail).
  { rewrite <- rev_app_distr, <- Hr. by rewrite rev_involutive. }
  exists lead, (rev trail). repeat split.
  - by rewrite <- Hmid.
  - done.
  - by apply Forall_rev.
  - intros c Hc. apply Hhead. rewrite Hmid.
    destruct (rev core); [done|]. simpl in *. done.
  - intros c Hc. apply Hlast. rewrite rev_alt in Hc.
    change (rev_append core []) with (reverse core) in Hc.
    by rewrite last_reverse in Hc.
Qed.

(** ** get_commit_data on the text *)

Lemma scan_lines_message st lines :
  is_message st = true →
  scan_lines st lines
  = Ok (CommitScan (parents st) (message st ++ unlines lines) true).
Proof.
  revert st. induction lines as [|line rest IH]; intros [ps msg b] Hb;
    simpl in *; subst b.
  - unfold unlines. simpl. by rewrite app_nil_r.
  - unfold scan_line. simpl. rewrite IH by done. simpl.
    unfold unlines. simpl. by rewrite <- !app_assoc.
Qed.

Lemma scan_line_header ps msg line :
  scan_line (CommitScan ps msg false) line
  = if decide (line = []) then Ok (CommitScan ps msg true)
    else if is_parent_line line
         then Ok (CommitScan (ps ++ [parent_field line]) msg false)
         else Ok (CommitScan ps msg false).
Proof.
  unfold scan_line. cbn [is_message parents message].
  fold (is_parent_line line). destruct (is_parent_line line) eqn:Hp.
  - rewrite str_split_parent_line by done.
    destruct (decide (line = [])) as [->|]; [discriminate Hp|done].
  - by destruct (decide (line = [])).
Qed.

Lemma scan_lines_headers ps lines :
  scan_lines (CommitScan ps [] false) lines
  = Ok (CommitScan
          (ps ++ (parent_field <$>
                    List.filter is_parent_line (lines_before_blank lines)))
          (unlines (lines_after_blank lines))
          (bool_decide ([] ∈ lines))).
Proof.
  revert ps. induction lines as [|line rest IH]; intros ps.
  - cbn. by rewrite app_nil_r.
  - cbn [scan_lines lines_before_blank lines_after_blank].
    rewrite scan_line_header.
    destruct (decide (line = [])) as [->|Hne].
    + cbn [result_bind]. rewrite scan_lines_message by done.
      cbn [parents message List.filter fmap list_fmap app].
      rewrite app_nil_r, bool_decide_eq_true_2 by left. done.
    + assert (Hin : bool_decide ([] ∈ line :: rest) = bool_decide ([] ∈ rest)).
      { apply bool_decide_ext. rewrite elem_of_cons.
        split; [by intros [?|?]|by right]. }
      rewrite Hin. cbn [List.filter].
      destruct (is_parent_line line) eqn:Hp; cbn [result_bind]; rewrite IH.
      * by rewrite <- app_assoc.
      * done.
Qed.

(** The parents are the second fields of the [parent ] lines among the
    headers, and the message is the stripped text of the lines after the first
    empty line. *)
Lemma parse_commit_data_spec text :
  parse_commit_data text
  = Ok (parent_field <$>
          List.filter is_parent_line (lines_before_blank (str_split LF text)),
        str_strip (unlines (lines_after_blank (str_split LF text)))).
Proof. unfold parse_commit_data. by rewrite scan_lines_headers. Qed.

Lemma lines_before_blank_all lines :
  [] ∉ lines → lines_before_blank lines = lines.
Proof.
  induction lines as [|line rest IH]; intros H; simpl; [done|].
  rewrite not_elem_of_cons in H. destruct H as [Hl Hr].
  rewrite decide_False by done. by rewrite IH.
Qed.

Lemma lines_after_blank_none lines :
  [] ∉ lines → lines_after_blank lines = [].
Proof.
  induction lines as [|line rest IH]; intros H; simpl; [done|].
  rewrite not_elem_of_cons in H. destruct H as [Hl Hr].
  rewrite decide_False by done. by rewrite IH.
Qed.

(** C4, as the code has it: for every commit text with an empty line, the
    message [get_commit_data] returns is the concatenation of the lines after
    the first empty line, each followed by a newline, with the whitespace at
    BOTH ends removed ([str.strip]); the parents are those of the header
    lines. *)
Theorem message_is_stripped_text_after_blank text :
  [] ∈ str_split LF text →
  parse_commit_data text
  = Ok (parent_field <$>
          List.filter is_parent_line (lines_before_blank (str_split LF text)),
        str_strip (unlines (lines_after_blank (str_split LF text)))).
Proof. intros _. apply parse_commit_data_spec. Qed.

Lemma message_is_stripped_text_after_blank_witness :
  [] ∈ str_split LF TestRepo.commit_data
  ∧ parse_commit_data TestRepo.commit_data
    = Ok ([TestRepo.parent_hash], py "Initial commit").
Proof.
  assert (H : [] ∈ str_split LF TestRepo.commit_data).
  { vm_compute. do 4 right. by left. }
  split; [exact H|].
  rewrite (message_is_stripped_text_after_blank _ H). reflexivity.
Defined.

(** C4 as stated fails: a message that begins with whitespace loses it, so
    the result is not the right-trimmed text. *)
Lemma message_leading_whitespace_is_removed :
  ¬ (∀ text,
       [] ∈ str_split LF text →
       ∃ parents,
         parse_commit_data text
         = Ok (parents,
               str_rstrip (unlines (lines_after_blank (str_split LF text))))).
Proof.
  intros H. destruct (H (LF :: py "  x")) as [parents Hp].
  - vm_compute. by left.
  - assert (Hcode : parse_commit_data (LF :: py "  x") = Ok ([], py "x"))
      by reflexivity.
    assert (Hright :
      str_rstrip (unlines (lines_after_blank (str_split LF (LF :: py "  x"))))
      = py "  x") by reflexivity.
    rewrite Hcode, Hright in Hp. discriminate Hp.
Qed.

(** C5: a commit text without any empty line is not an error; the message is
    empty and the parents are the second fields of all its [parent ] lines. *)
Theorem no_blank_line_gives_empty_message text :
  [] ∉ str_split LF text →
  parse_commit_data text
  = Ok (parent_field <$> List.filter is_parent_line (str_split LF text), []).
Proof.
  intros H. rewrite parse_commit_data_spec.
  by rewrite lines_before_blank_all, lines_after_blank_none.
Qed.

Lemma no_blank_line_gives_empty_message_witness :
  parse_commit_data (py "tree 0000" ++ [LF] ++ py "parent abc def")
  = Ok ([py "abc"], []).
Proof.
  rewrite no_blank_line_gives_empty_message; [reflexivity|].
  vm_compute. intros H. by repeat (apply elem_of_cons in H as [H|H]; [done|]);
    apply elem_of_nil in H.
Defined.

(** C10: decoding the text never raises, and a header line that is exactly
    [parent ] adds the empty string to the parents. *)
Theorem parse_commit_data_total :
  (∀ text, ∃ parents message,
      parse_commit_data text = Ok (parents, message))
  ∧ (∀ parents message,
       scan_line (CommitScan parents message false) (py "parent ")
       = Ok (CommitScan (parents ++ [[]]) message false))
  ∧ parse_commit_data (py "parent ") = Ok ([[]], []).
Proof.
  split; [|split; reflexivity].
  intros text. rewrite parse_commit_data_spec. by do 2 eexists.
Qed.

(** ** read_git_object *)

Section Reader.
Context `{Codec}.
Implicit Types (fs : filesystem) (repo_path object_hash : str).

Lemma read_git_object_missing fs repo_path object_hash calls :
  fs !! object_file repo_path object_hash = None →
  read_git_object fs repo_path object_hash calls
  = (Raise (FileNotFoundError
              (py "Git object " ++ object_hash ++ py " not found")),
     calls ++ [object_hash]).
Proof.
  intros Hfs. unfold read_git_object, mbind, M_bind, bind, record_call.
  unfold os_path_exists. rewrite Hfs.
  rewrite bool_decide_eq_false_2 by (by intros [? ?]). done.
Qed.

Lemma read_git_object_file fs repo_path object_hash content calls :
  fs !! object_file repo_path object_hash = Some (File content) →
  read_git_object fs repo_path object_hash calls
  = (decode_object content, calls ++ [object_hash]).
Proof.
  intros Hfs. unfold read_git_object, mbind, M_bind, bind, record_call.
  unfold os_path_exists, lift, read_binary, decode_object. rewrite Hfs.
  rewrite bool_decide_eq_true_2 by (by eexists). simpl.
  destruct (zlib_decompress content) as [d|]; [|done].
  by destruct (decode_utf8 d).
Qed.

Lemma read_git_object_dir fs repo_path object_hash calls :
  fs !! object_file repo_path object_hash = Some Dir →
  read_git_object fs repo_path object_hash calls
  = (Raise IsADirectoryError, calls ++ [object_hash]).
Proof.
  intros Hfs. unfold read_git_object, mbind, M_bind, bind, record_call.
  unfold os_path_exists, lift, read_binary. rewrite Hfs.
  by rewrite bool_decide_eq_true_2 by (by eexists).
Qed.

Lemma decode_object_not_missing content msg :
  decode_object content ≠ Raise (FileNotFoundError msg).
Proof.
  unfold decode_object. destruct (zlib_decompress content) as [d|]; [|done].
  by destruct (decode_utf8 d).
Qed.

(** Every call is recorded, whatever its outcome. *)
Lemma read_git_object_calls fs repo_path object_hash calls :
  (read_git_object fs repo_path object_hash calls).2 = calls ++ [object_hash].
Proof.
  destruct (fs !! object_file repo_path object_hash) as [[content|]|] eqn:Hfs.
  - by erewrite read_git_object_file.
  - by erewrite read_git_object_dir.
  - by erewrite read_git_object_missing.
Qed.

(** The outcome does not depend on the calls made before. *)
Lemma read_git_object_run fs repo_path object_hash calls :
  read_git_object fs repo_path object_hash calls
  = ((read_git_object fs repo_path object_hash []).1, calls ++ [object_hash]).
Proof.
  destruct (fs !! object_file repo_path object_hash) as [[content|]|] eqn:Hfs.
  - by erewrite !read_git_object_file.
  - by erewrite !read_git_object_dir.
  - by erewrite !read_git_object_missing.
Qed.
End Reader.

(** [posixpath.join] builds the path the spec writes
    [<root>/.git/objects/<first two>/<rest>] for a root that is not empty and
    has no final slash and an identifier that is not empty and has no
    slash. *)
Lemma str_startswith_slash s :
  SLASH ∉ s → str_startswith s [SLASH] = false.
Proof.
  destruct s as [|c s]; [done|]. intros Hs. simpl.
  rewrite andb_true_r. apply N.eqb_neq. intros ->. apply Hs. by left.
Qed.

Lemma str_endswith_app_slash s c :
  c ≠ SLASH → str_endswith (s ++ [c]) [SLASH] = false.
Proof.
  intros Hc. unfold str_endswith. rewrite rev_app_distr. simpl.
  rewrite andb_true_r. by apply N.eqb_neq.
Qed.

Lemma path_join2_plain path b :
  path ≠ [] → str_endswith path [SLASH] = false → SLASH ∉ b →
  path_join2 path b = path ++ [SLASH] ++ b.
Proof.
  intros Hne Hend Hb. unfold path_join2.
  rewrite str_startswith_slash by done.
  by rewrite bool_decide_eq_false_2, Hend by done.
Qed.

Lemma str_endswith_slash_nonempty_suffix s b :
  b ≠ [] → SLASH ∉ b → str_endswith (s ++ b) [SLASH] = false.
Proof.
  intros Hb Hs. destruct b as [|c b _] using rev_ind; [done|].
  rewrite app_assoc. apply str_endswith_app_slash.
  intros ->. apply Hs. rewrite elem_of_app. right. by left.
Qed.

Lemma object_file_shape repo_path object_hash :
  repo_path ≠ [] → str_endswith repo_path [SLASH] = false →
  object_hash ≠ [] → SLASH ∉ object_hash →
  object_file repo_path object_hash
  = repo_path ++ py "/.git/objects/" ++ take 2 object_hash ++ [SLASH]
    ++ drop 2 object_hash.
Proof.
  intros Hroot Hend Hne Hslash. unfold object_file, os_path_join. simpl.
  assert ((SLASH ∉ take 2 object_hash) ∧ (SLASH ∉ drop 2 object_hash))
    as [Htake Hdrop].
  { rewrite <- (take_drop 2 object_hash), elem_of_app in Hslash. tauto. }
  assert (Htake_ne : take 2 object_hash ≠ []).
  { by destruct object_hash as [|? [|? ?]]. }
  rewrite (path_join2_plain repo_path (py ".git")); [|done|done|].
  2:{ vm_compute. intros Hin.
      by repeat (apply elem_of_cons in Hin as [Hin|Hin]; [done|]);
        apply elem_of_nil in Hin. }
  rewrite (path_join2_plain _ (py "objects")).
  2:{ by destruct repo_path. }
  2:{ rewrite app_assoc.
      apply (str_endswith_slash_nonempty_suffix _ (py ".git")); [done|].
      vm_compute. intros Hin.
      by repeat (apply elem_of_cons in Hin as [Hin|Hin]; [done|]);
        apply elem_of_nil in Hin. }
  2:{ vm_compute. intros Hin.
      by repeat (apply elem_of_cons in Hin as [Hin|Hin]; [done|]);
        apply elem_of_nil in Hin. }
  rewrite (path_join2_plain _ (take 2 object_hash)).
  2:{ by destruct repo_path. }
  2:{ rewrite !app_assoc.
      apply (str_endswith_slash_nonempty_suffix _ (py "objects")); [done|].
      vm_compute. intros Hin.
      by repeat (apply elem_of_cons in Hin as [Hin|Hin]; [done|]);
        apply elem_of_nil in Hin. }
  2:{ done. }
  rewrite (path_join2_plain _ (drop 2 object_hash)).
  2:{ by destruct repo_path. }
  2:{ rewrite !app_assoc.
      by apply (str_endswith_slash_nonempty_suffix _ (take 2 object_hash)). }
  2:{ done. }
  change (py "/.git/objects/") with ([SLASH] ++ py ".git" ++ [SLASH] ++ py "objects" ++ [SLASH]).
  by rewrite <- !app_assoc.
Qed.

(** C6: [read_git_object] raises [FileNotFoundError] (the spec's
    ObjectNotFound), and nothing else, exactly when nothing exists at the
    object's path; when a file is there and holds compressed UTF-8 text, the
    text is returned. The path is [<root>/.git/objects/<first two characters
    of the identifier>/<the others>]. *)
Theorem read_git_object_not_found_iff `{Codec} (fs : filesystem)
    (repo_path object_hash : str) (calls : call_log) :
  (fs !! object_file repo_path object_hash = None
   ↔ ∃ msg, (read_git_object fs repo_path object_hash calls).1
            = Raise (FileNotFoundError msg))
  ∧ (∀ content decompressed text,
       fs !! object_file repo_path object_hash = Some (File content) →
       zlib_decompress content = Some decompressed →
       decode_utf8 decompressed = Some text →
       (read_git_object fs repo_path object_hash calls).1 = Ok text)
  ∧ (repo_path ≠ [] → str_endswith repo_path [SLASH] = false →
     object_hash ≠ [] → SLASH ∉ object_hash →
     object_file repo_path object_hash
     = repo_path ++ py "/.git/objects/" ++ take 2 object_hash ++ [SLASH]
       ++ drop 2 object_hash).
Proof.
  split; [|split].
  - split.
    + intros Hfs. eexists. by erewrite read_git_object_missing.
    + intros [msg Hr].
      destruct (fs !! object_file repo_path object_hash) as [[c|]|] eqn:Hfs;
        [| |done].
      * erewrite read_git_object_file in Hr by done. simpl in Hr.
        by apply decode_object_not_missing in Hr.
      * by erewrite read_git_object_dir in Hr.
  - intros content d text Hfs Hd Ht. erewrite read_git_object_file by done.
    simpl. unfold decode_object. by rewrite Hd, Ht.
  - apply object_file_shape.
Qed.

(** C7: round trip. [encode_utf8] and [zlib_compress] are the library's
    encoder and compressor, of which the library's decoder and decompressor
    are left inverses. A text that is encoded, compressed and written to the
    file [<root>/.git/objects/<first two characters>/<the others>] of an
    identifier (root not empty and without final slash, identifier not empty
    and without slash) is what [read_git_object] returns for that root and
    identifier, whatever else the file system holds. *)
Theorem read_git_object_round_trip `{Codec}
    (zlib_compress : bytes → bytes) (encode_utf8 : str → option bytes)
    (fs : filesystem) (repo_path object_hash : str) (text : str)
    (encoded : bytes) (calls : call_log) :
  (∀ data, zlib_decompress (zlib_compress data) = Some data) →
  (∀ t e, encode_utf8 t = Some e → decode_utf8 e = Some t) →
  repo_path ≠ [] → str_endswith repo_path [SLASH] = false →
  object_hash ≠ [] → SLASH ∉ object_hash →
  encode_utf8 text = Some encoded →
  read_git_object
    (<[repo_path ++ py "/.git/objects/" ++ take 2 object_hash ++ [SLASH]
         ++ drop 2 object_hash
       := File (zlib_compress encoded)]> fs)
    repo_path object_hash calls
  = (Ok text, calls ++ [object_hash]).
Proof.
  intros Hzlib Hutf8 Hroot Hend Hne Hslash Henc.
  rewrite <- (object_file_shape repo_path object_hash) by done.
  erewrite read_git_object_file by apply lookup_insert_eq.
  unfold decode_object. by rewrite Hzlib, (Hutf8 text encoded Henc).
Qed.

(** ** get_commit_graph *)

Section GraphBuilder.
Context `{Codec}.
Implicit Types (fs : filesystem) (repo_path : str) (commit_graph : dict).
Implicit Types (stack calls : list str).

Lemma get_commit_data_run fs repo_path commit_hash calls :
  get_commit_data fs repo_path commit_hash calls
  = (commit_result fs repo_path commit_hash, calls ++ [commit_hash]).
Proof.
  unfold commit_result, get_commit_data, mbind, M_bind, bind.
  rewrite (read_git_object_run _ _ _ calls).
  rewrite (read_git_object_run _ _ _ []).
  by destruct (read_git_object fs repo_path commit_hash []).1.
Qed.

Lemma list_pop_snoc {A} (l : list A) x : list_pop (l ++ [x]) = Some (x, l).
Proof. unfold list_pop. rewrite rev_app_distr. simpl. by rewrite rev_involutive. Qed.

Lemma dict_contains_spec commit_graph key :
  dict_contains commit_graph key = true ↔ key ∈ commit_graph.*1.
Proof. unfold dict_contains. apply bool_decide_eq_true. Qed.

Lemma dict_set_fresh commit_graph key value :
  key ∉ commit_graph.*1 →
  dict_set commit_graph key value = commit_graph ++ [(key, value)].
Proof.
  induction commit_graph as [|[k v] d IH]; intros Hk; simpl; [done|].
  rewrite fmap_cons, not_elem_of_cons in Hk. destruct Hk as [Hne Hd].
  rewrite decide_False by done. by rewrite IH.
Qed.

(** One pass of the loop, by what is popped. *)
Lemma while_stack_empty fuel fs repo_path commit_graph calls :
  while_stack (S fuel) fs repo_path commit_graph [] calls
  = Some (Ok commit_graph, calls).
Proof. done. Qed.

Lemma while_stack_skip fuel fs repo_path commit_graph stack current calls :
  current ∈ commit_graph.*1 →
  while_stack (S fuel) fs repo_path commit_graph (stack ++ [current]) calls
  = while_stack fuel fs repo_path commit_graph stack calls.
Proof.
  intros Hin. cbn [while_stack]. rewrite list_pop_snoc.
  apply dict_contains_spec in Hin. by rewrite Hin.
Qed.

Lemma while_stack_visit fuel fs repo_path commit_graph stack current calls
    parents message :
  current ∉ commit_graph.*1 →
  commit_result fs repo_path current = Ok (parents, message) →
  while_stack (S fuel) fs repo_path commit_graph (stack ++ [current]) calls
  = while_stack fuel fs repo_path (commit_graph ++ [(current, parents)])
      (stack ++ parents) (calls ++ [current]).
Proof.
  intros Hin Hr. cbn [while_stack]. rewrite list_pop_snoc.
  rewrite <- dict_contains_spec in Hin. apply not_true_is_false in Hin.
  rewrite Hin. cbn [negb]. rewrite get_commit_data_run, Hr.
  rewrite dict_set_fresh; [done|].
  by rewrite <- dict_contains_spec, Hin.
Qed.

Lemma while_stack_fail fuel fs repo_path commit_graph stack current calls e :
  current ∉ commit_graph.*1 →
  commit_result fs repo_path current = Raise e →
  while_stack (S fuel) fs repo_path commit_graph (stack ++ [current]) calls
  = Some (Raise e, calls ++ [current]).
Proof.
  intros Hin Hr. cbn [while_stack]. rewrite list_pop_snoc.
  rewrite <- dict_contains_spec in Hin. apply not_true_is_false in Hin.
  rewrite Hin. cbn [negb]. by rewrite get_commit_data_run, Hr.
Qed.

(** The result does not depend on the fuel left over. *)
Lemma while_stack_fuel_mono fuel fuel' fs repo_path commit_graph stack calls out :
  while_stack fuel fs repo_path commit_graph stack calls = Some out →
  fuel ≤ fuel' →
  while_stack fuel' fs repo_path commit_graph stack calls = Some out.
Proof.
  revert fuel' commit_graph stack calls.
  induction fuel as [|fuel IH]; intros fuel' commit_graph stack calls Hrun Hle;
    [done|].
  destruct fuel' as [|fuel']; [lia|].
  destruct stack as [|current stack _] using rev_ind.
  { by rewrite while_stack_empty in *. }
  destruct (decide (current ∈ commit_graph.*1)) as [Hin|Hin].
  { rewrite while_stack_skip in * by done. apply IH; [done|lia]. }
  destruct (commit_result fs repo_path current) as [[parents message]|e] eqn:Hr.
  - erewrite while_stack_visit in * by done. apply IH; [done|lia].
  - by erewrite while_stack_fail in * by done.
Qed.

(** C1: in a repository where commit [A] has the single parent [B] and
    commit [B] has no parents, [get_commit_graph] from [A] returns exactly
    the mapping of [A] to [[B]] and of [B] to the empty list. *)
Theorem get_commit_graph_parent_and_child fuel fs repo_path A B
    message_A message_B calls :
  commit_result fs repo_path A = Ok ([B], message_A) →
  commit_result fs repo_path B = Ok ([], message_B) →
  3 ≤ fuel →
  get_commit_graph fuel fs repo_path A calls
  = Some (Ok [(A, [B]); (B, [])], calls ++ [A; B]).
Proof.
  intros HA HB Hfuel.
  assert (HAB : A ≠ B) by (intros ->; congruence).
  apply (while_stack_fuel_mono 3); [|done]. unfold get_commit_graph.
  change [A] with ([] ++ [A]).
  erewrite while_stack_visit; [|by apply not_elem_of_nil|done].
  cbn [app]. change [B] with ([] ++ [B]) at 2.
  erewrite while_stack_visit;
    [|cbn; intros Hx%list_elem_of_singleton; congruence|done].
  cbn [app]. rewrite while_stack_empty. by rewrite <- app_assoc.
Qed.

(** The calls made so far are for keys of the graph, each once. *)
Lemma while_stack_calls_nodup fuel fs repo_path commit_graph stack calls
    result calls' :
  NoDup calls → (∀ h, h ∈ calls → h ∈ commit_graph.*1) →
  while_stack fuel fs repo_path commit_graph stack calls
  = Some (result, calls') →
  NoDup calls'.
Proof.
  revert commit_graph stack calls.
  induction fuel as [|fuel IH]; intros commit_graph stack calls Hnd Hkeys Hrun;
    [done|].
  destruct stack as [|current stack _] using rev_ind.
  { rewrite while_stack_empty in Hrun. by simplify_eq. }
  destruct (decide (current ∈ commit_graph.*1)) as [Hin|Hin].
  { rewrite while_stack_skip in Hrun by done. by eapply IH. }
  assert (Hnd' : NoDup (calls ++ [current])).
  { apply NoDup_app. split; [done|]. split; [|apply NoDup_singleton].
    intros h Hh ->%list_elem_of_singleton. by apply Hin, Hkeys. }
  destruct (commit_result fs repo_path current) as [[parents message]|e] eqn:Hr.
  - erewrite while_stack_visit in Hrun by done.
    eapply IH; [exact Hnd'| |exact Hrun].
    intros h Hh. rewrite fmap_app, elem_of_app. simpl.
    apply elem_of_app in Hh as [Hh|Hh]; [left; by apply Hkeys|right; done].
  - erewrite while_stack_fail in Hrun by done. by simplify_eq.
Qed.

(** C2: in one run of [get_commit_graph] no identifier is read and decoded
    twice, and an identifier that is already a key when it is popped is
    skipped without a read. *)
Theorem each_object_read_at_most_once fuel fs repo_path :
  (∀ starting_commit_hash result calls,
     get_commit_graph fuel fs repo_path starting_commit_hash []
     = Some (result, calls) →
     NoDup calls)
  ∧ (∀ commit_graph stack current calls,
       current ∈ commit_graph.*1 →
       while_stack (S fuel) fs repo_path commit_graph (stack ++ [current]) calls
       = while_stack fuel fs repo_path commit_graph stack calls).
Proof.
  split.
  - intros start result calls Hrun.
    eapply while_stack_calls_nodup; [apply NoDup_nil_2| |exact Hrun].
    by intros h ?%elem_of_nil.
  - intros. by apply while_stack_skip.
Qed.
(** *** Termination *)

Lemma commit_result_file fs repo_path commit_hash parents message :
  commit_result fs repo_path commit_hash = Ok (parents, message) →
  ∃ content,
    fs !! object_file repo_path commit_hash = Some (File content)
    ∧ result_bind (decode_object content) parse_commit_data
      = Ok (parents, message).
Proof.
  unfold commit_result, get_commit_data, mbind, M_bind, bind. intros Hr.
  destruct (fs !! object_file repo_path commit_hash) as [[content|]|] eqn:Hfs.
  - exists content. split; [done|].
    erewrite read_git_object_file in Hr by done.
    by destruct (decode_object content).
  - by erewrite read_git_object_dir in Hr.
  - by erewrite read_git_object_missing in Hr.
Qed.

Lemma commit_result_stored fs repo_path commit_hash parents message parent :
  commit_result fs repo_path commit_hash = Ok (parents, message) →
  parent ∈ parents → parent ∈ stored_parents fs.
Proof.
  intros (content & Hfs & Hdec)%commit_result_file Hin.
  unfold stored_parents. apply list_elem_of_bind.
  exists (object_file repo_path commit_hash, File content). split.
  - simpl. by rewrite Hdec.
  - by apply elem_of_map_to_list.
Qed.

(** The loop ends when the identifiers it can meet all lie in a finite set
    [universe]: a pass either shortens the stack or adds to the graph a key
    of [universe] that was not there. *)
Lemma while_stack_terminates fs repo_path (universe : gset str) :
  (∀ h parents message,
     commit_result fs repo_path h = Ok (parents, message) →
     ∀ parent, parent ∈ parents → parent ∈ universe) →
  ∀ n commit_graph stack calls,
    size (universe ∖ list_to_set commit_graph.*1) = n →
    (∀ h, h ∈ stack → h ∈ universe) →
    ∃ fuel out,
      while_stack fuel fs repo_path commit_graph stack calls = Some out.
Proof.
  intros Hclosed n. induction (lt_wf n) as [n _ IHn].
  intros commit_graph stack.
  induction stack as [|current stack IHs] using rev_ind;
    intros calls Hn Hstack.
  { exists 1%nat. eexists. apply while_stack_empty. }
  assert (Hcur : current ∈ universe).
  { apply Hstack, elem_of_app. right. by left. }
  assert (Hrest : ∀ h, h ∈ stack → h ∈ universe).
  { intros h Hh. apply Hstack, elem_of_app. by left. }
  destruct (decide (current ∈ commit_graph.*1)) as [Hin|Hin].
  { destruct (IHs calls Hn Hrest) as (fuel & out & Hrun).
    exists (S fuel), out. by rewrite while_stack_skip. }
  destruct (commit_result fs repo_path current)
    as [[parents message]|e] eqn:Hr.
  - edestruct (IHn (size (universe ∖
                 list_to_set (commit_graph ++ [(current, parents)]).*1)))
      as (fuel & out & Hrun); [|reflexivity| |].
    + subst n. apply subset_size. split.
      * intros h. rewrite !elem_of_difference, !elem_of_list_to_set, fmap_app.
        rewrite elem_of_app. tauto.
      * intros Hsub. specialize (Hsub current).
        rewrite !elem_of_difference, !elem_of_list_to_set, fmap_app in Hsub.
        rewrite elem_of_app in Hsub. destruct Hsub as [_ Hnot]; [done|].
        apply Hnot. right. by left.
    + intros h [Hh|Hh]%elem_of_app; [by apply Hrest|].
      by eapply Hclosed.
    + exists (S fuel), out. erewrite while_stack_visit by done. exact Hrun.
  - exists 1%nat. eexists. by erewrite while_stack_fail.
Qed.

(** C3: whatever the (finite) object store holds, cycles and shared
    parents included, the loop of [get_commit_graph] ends: with enough fuel
    it returns a graph or raises, and more fuel changes nothing. *)
Theorem get_commit_graph_terminates fs repo_path starting_commit_hash calls :
  ∃ fuel out,
    ∀ fuel', fuel ≤ fuel' →
      get_commit_graph fuel' fs repo_path starting_commit_hash calls
      = Some out.
Proof.
  set (universe := list_to_set
                     (starting_commit_hash :: stored_parents fs) : gset str).
  destruct (while_stack_terminates fs repo_path universe) with
    (commit_graph := @nil (str * list str)) (stack := [starting_commit_hash])
    (calls := calls) (n := size (universe ∖ list_to_set (@nil str)))
    as (fuel & out & Hrun).
  - intros h parents message Hr parent Hin. unfold universe.
    rewrite elem_of_list_to_set. right. by eapply commit_result_stored.
  - done.
  - intros h ->%list_elem_of_singleton. unfold universe.
    rewrite elem_of_list_to_set. by left.
  - exists fuel, out. intros fuel' Hle.
    by eapply while_stack_fuel_mono.
Qed.
End GraphBuilder.

(** ** generate_plantuml_graph *)

Section Renderer.
Context `{Codec}.
Implicit Types (fs : filesystem) (repo_path : str) (commit_graph : dict).

Lemma str_join_empty pieces : str_join [] pieces = concat pieces.
Proof.
  induction pieces as [|piece [|piece' rest] IH]; [done| |].
  - simpl. by rewrite app_nil_r.
  - change (str_join [] (piece :: piece' :: rest))
      with (piece ++ [] ++ str_join [] (piece' :: rest)).
    by rewrite IH.
Qed.

Lemma str_split_ws_from_concat word s :
  concat (str_split_ws_from word s) = word ++ strip_all s.
Proof.
  revert word. induction s as [|c s IH]; intros word; simpl.
  - destruct word; [done|]. simpl. by rewrite !app_nil_r.
  - destruct (isspace c); simpl.
    + destruct word; simpl; by rewrite IH.
    + rewrite IH. by rewrite <- app_assoc.
Qed.

(** Joining the pieces of [s.split()] removes all the whitespace of [s]. *)
Lemma str_join_split_ws s : str_join [] (str_split_ws s) = strip_all s.
Proof.
  unfold str_split_ws. by rewrite str_join_empty, str_split_ws_from_concat.
Qed.

Lemma for_parents_ok fs repo_path commit commit_message parents code calls :
  Forall (decodes fs repo_path) parents →
  for_parents fs repo_path commit commit_message parents code calls
  = (Ok (code ++ concat ((λ parent,
                            edge_text (label fs repo_path parent)
                              commit_message parent commit) <$> parents)),
     calls ++ parents).
Proof.
  revert code calls. induction parents as [|parent rest IH];
    intros code calls Hdec.
  - simpl. by rewrite !app_nil_r.
  - apply Forall_cons in Hdec as [[[ps msg] Hp] Hrest].
    cbn [for_parents]. unfold mbind, M_bind, bind.
    rewrite get_commit_data_run, Hp. rewrite IH by done.
    rewrite str_join_split_ws.
    assert (Hl : label fs repo_path parent = strip_all msg).
    { unfold label. by rewrite Hp. }
    rewrite fmap_cons. cbn [concat]. rewrite Hl. unfold edge_text at 2.
    rewrite <- !(app_assoc calls). f_equal. f_equal.
    by rewrite <- !app_assoc.
Qed.

Lemma for_parents_decodes fs repo_path commit commit_message parents code
    calls out calls' :
  for_parents fs repo_path commit commit_message parents code calls
  = (Ok out, calls') →
  Forall (decodes fs repo_path) parents.
Proof.
  revert code calls. induction parents as [|parent rest IH];
    intros code calls Hrun; [by constructor|].
  cbn [for_parents] in Hrun. unfold mbind, M_bind, bind in Hrun.
  rewrite get_commit_data_run in Hrun.
  destruct (commit_result fs repo_path parent) as [[ps msg]|e] eqn:Hp;
    [|done].
  constructor; [by eexists|]. by eapply IH.
Qed.

Lemma for_items_ok fs repo_path items code calls :
  Forall (item_decodes fs repo_path) items →
  for_items fs repo_path items code calls
  = (Ok (code ++ concat ((λ edge,
                            edge_text (label fs repo_path edge.1)
                              (label fs repo_path edge.2) edge.1 edge.2)
                         <$> edges items)),
     calls ++ decode_order items).
Proof.
  revert code calls. induction items as [|[commit parents] rest IH];
    intros code calls Hdec.
  - simpl. by rewrite !app_nil_r.
  - apply Forall_cons in Hdec as [[[[ps msg] Hc] Hps] Hrest].
    simpl in Hc, Hps.
    cbn [for_items]. unfold mbind, M_bind, bind.
    rewrite get_commit_data_run, Hc. rewrite for_parents_ok by done.
    rewrite IH by done. rewrite str_join_split_ws.
    unfold edges, decode_order. rewrite !bind_cons. cbn [fst snd].
    assert (Hl : label fs repo_path commit = strip_all msg).
    { unfold label. by rewrite Hc. }
    rewrite fmap_app, concat_app, <- !list_fmap_compose.
    unfold compose. cbn [fst snd]. rewrite Hl.
    rewrite <- !app_assoc. done.
Qed.

Lemma for_items_decodes fs repo_path items code calls out calls' :
  for_items fs repo_path items code calls = (Ok out, calls') →
  Forall (item_decodes fs repo_path) items.
Proof.
  revert code calls. induction items as [|[commit parents] rest IH];
    intros code calls Hrun; [by constructor|].
  cbn [for_items] in Hrun. unfold mbind, M_bind, bind in Hrun.
  rewrite get_commit_data_run in Hrun.
  destruct (commit_result fs repo_path commit) as [[ps msg]|e] eqn:Hc;
    [|done].
  destruct (for_parents fs repo_path commit
              (str_join [] (str_split_ws msg)) parents code
              (calls ++ [commit])) as [[code'|e] calls''] eqn:Hps; [|done].
  constructor.
  - split; [by eexists|]. by eapply for_parents_decodes.
  - by eapply IH.
Qed.

(** The text and the reads of a run that returns. *)
Lemma generate_plantuml_graph_run commit_graph fs repo_path calls out calls' :
  generate_plantuml_graph commit_graph fs repo_path calls = (Ok out, calls') →
  Forall (item_decodes fs repo_path) commit_graph
  ∧ out = (py "@startuml" ++ [LF])
          ++ concat ((λ edge,
                        edge_text (label fs repo_path edge.1)
                          (label fs repo_path edge.2) edge.1 edge.2)
                     <$> edges commit_graph)
          ++ py "@enduml"
  ∧ calls' = calls ++ decode_order commit_graph.
Proof.
  unfold generate_plantuml_graph, mbind, M_bind, bind. intros Hrun.
  destruct (for_items fs repo_path commit_graph (py "@startuml" ++ [LF]) calls)
    as [[code|e] calls''] eqn:Hitems; [|done].
  pose proof (for_items_decodes _ _ _ _ _ _ _ Hitems) as Hdec.
  rewrite for_items_ok in Hitems by done.
  unfold ret in Hrun. simplify_eq. by rewrite <- !app_assoc.
Qed.

(** It returns when every key and every parent of the graph decodes. *)
Lemma generate_plantuml_graph_ok commit_graph fs repo_path calls :
  Forall (item_decodes fs repo_path) commit_graph →
  ∃ out,
    generate_plantuml_graph commit_graph fs repo_path calls
    = (Ok out, calls ++ decode_order commit_graph).
Proof.
  intros Hdec. unfold generate_plantuml_graph, mbind, M_bind, bind.
  rewrite for_items_ok by done. by eexists.
Qed.

(** C8: the text [generate_plantuml_graph] returns begins with [@startuml]
    and ends with [@enduml]; between them it has, for each (parent, child)
    edge of the graph in order, a participant line for the parent, one for
    the child and the edge line, and the label of a commit is its decoded
    message without whitespace. *)
Theorem generate_plantuml_graph_text commit_graph fs repo_path calls out
    calls' :
  generate_plantuml_graph commit_graph fs repo_path calls = (Ok out, calls') →
  py "@startuml" `prefix_of` out
  ∧ py "@enduml" `suffix_of` out
  ∧ out = (py "@startuml" ++ [LF])
          ++ concat ((λ edge,
                        edge_text (label fs repo_path edge.1)
                          (label fs repo_path edge.2) edge.1 edge.2)
                     <$> edges commit_graph)
          ++ py "@enduml"
  ∧ (∀ parent commit,
       (parent, commit) ∈ edges commit_graph →
       ∃ parent_data commit_data,
         commit_result fs repo_path parent = Ok parent_data
         ∧ commit_result fs repo_path commit = Ok commit_data
         ∧ label fs repo_path parent = strip_all parent_data.2
         ∧ label fs repo_path commit = strip_all commit_data.2).
Proof.
  intros (Hdec & Hout & _)%generate_plantuml_graph_run.
  split; [|split; [|split]].
  - rewrite Hout, <- !app_assoc. by eexists.
  - rewrite Hout, !app_assoc. by eexists.
  - done.
  - intros parent commit Hedge. unfold edges in Hedge.
    apply list_elem_of_bind in Hedge as ([c ps] & Hin & Hitem).
    apply list_elem_of_fmap in Hin as (p & [= -> ->] & Hp). simpl in Hp.
    rewrite Forall_forall in Hdec. destruct (Hdec _ Hitem) as [Hc Hps].
    simpl in Hc, Hps. rewrite Forall_forall in Hps.
    destruct Hc as [[psc mc] Hc], (Hps _ Hp) as [[psp mp] Hpp].
    exists (psp, mp), (psc, mc). unfold label. by rewrite Hc, Hpp.
Qed.

(** C9, as the code has it: a run of [generate_plantuml_graph] that returns
    has decoded, for each item of the graph in order, the commit ONCE
    (whatever the number of its parents, none included) and then each of
    its parents once; the text depends on these decodes through the labels
    only. *)
Theorem generate_plantuml_graph_decodes commit_graph fs repo_path calls out
    calls' :
  generate_plantuml_graph commit_graph fs repo_path calls = (Ok out, calls') →
  calls' = calls ++ decode_order commit_graph
  ∧ length (decode_order commit_graph)
    = (length commit_graph + length (edges commit_graph))%nat
  ∧ out = (py "@startuml" ++ [LF])
          ++ concat ((λ edge,
                        edge_text (label fs repo_path edge.1)
                          (label fs repo_path edge.2) edge.1 edge.2)
                     <$> edges commit_graph)
          ++ py "@enduml".
Proof.
  intros (_ & Hout & Hcalls)%generate_plantuml_graph_run.
  split; [done|split; [|done]].
  clear. unfold decode_order, edges.
  induction commit_graph as [|[c ps] rest IH]; [done|].
  rewrite !bind_cons, !length_app, length_fmap, IH. simpl. lia.
Qed.
End Renderer.

(** ** The example codec: UTF-8 and zlib at level 0 *)

Ltac lia_div := zify; Z.to_euclidean_division_equations; lia.

(** A byte holds the numbers below 256. *)
Lemma to_N_byte_of n : (n < 256)%N → Byte.to_N (byte_of n) = n.
Proof.
  intros Hn. unfold byte_of. destruct (Byte.of_N n) as [b|] eqn:Hb; simpl.
  - by apply Byte.to_of_N.
  - apply Byte.of_N_None_iff in Hb. lia.
Qed.

Ltac decide_tests :=
  repeat match goal with
    | |- context [(?a <=? ?b)%N] =>
        first [rewrite (proj2 (N.leb_le a b)) by lia_div
              |rewrite (proj2 (N.leb_gt a b)) by lia_div]
    | |- context [(?a <? ?b)%N] =>
        first [rewrite (proj2 (N.ltb_lt a b)) by lia_div
              |rewrite (proj2 (N.ltb_ge a b)) by lia_div]
    end.

(** Decoding reads back one encoded character. *)
Lemma utf8_decode_encode_char c encoded rest :
  utf8_encode_char c = Some encoded →
  utf8_decode (encoded ++ rest) = cons c <$> utf8_decode rest.
Proof.
  unfold utf8_encode_char. intros Henc.
  destruct (c <? 128)%N eqn:H1; [|destruct (c <? 2048)%N eqn:H2;
    [|destruct ((55296 <=? c)%N && (c <=? 57343)%N) eqn:H3;
      [done|destruct (c <? 65536)%N eqn:H4;
        [|destruct (c <? 1114112)%N eqn:H5; [|done]]]]];
    simplify_eq; cbn [app utf8_decode];
    repeat match goal with
      | H : (_ <? _)%N = true |- _ => apply N.ltb_lt in H
      | H : (_ <? _)%N = false |- _ => apply N.ltb_ge in H
      end.
  - rewrite to_N_byte_of by lia_div. decide_tests. done.
  - rewrite !to_N_byte_of by lia_div. unfold utf8_cont. decide_tests. simpl.
    do 2 f_equal. lia_div.
  - apply andb_false_iff in H3.
    rewrite !to_N_byte_of by lia_div. unfold utf8_cont. decide_tests. simpl.
    assert (Hcp : ((224 + c / 4096 - 224) * 4096 + (128 + (c / 64) `mod` 64 - 128) * 64 + (128 + c `mod` 64 - 128) = c)%N) by lia_div.
    rewrite Hcp. decide_tests.
    destruct H3 as [H3|H3]; [apply N.leb_gt in H3|apply N.leb_gt in H3];
      decide_tests; simpl; try done.
    all: destruct (55296 <=? c)%N; done.
  - rewrite !to_N_byte_of by lia_div. unfold utf8_cont. decide_tests. simpl.
    assert (Hcp : ((240 + c / 262144 - 240) * 262144 + (128 + (c / 4096) `mod` 64 - 128) * 4096 + (128 + (c / 64) `mod` 64 - 128) * 64 + (128 + c `mod` 64 - 128) = c)%N) by lia_div.
    rewrite Hcp. decide_tests. done.
Qed.

(** [utf8_decode] is a left inverse of [utf8_encode]. *)
Lemma utf8_decode_encode text encoded :
  utf8_encode text = Some encoded → utf8_decode encoded = Some text.
Proof.
  revert encoded. induction text as [|c text IH]; intros encoded Henc;
    simpl in Henc.
  - by simplify_eq.
  - destruct (utf8_encode_char c) as [first|] eqn:Hc; [|done].
    destruct (utf8_encode text) as [rest|]; [|done].
    simpl in Henc. simplify_eq.
    rewrite (utf8_decode_encode_char c) by done. by rewrite (IH rest).
Qed.

Lemma block_max_N : N.of_nat block_max = 65535%N.
Proof. unfold block_max. apply N2Nat.id. Qed.

(** The stored blocks of [data] inflate to [data], whatever follows them. *)
Lemma inflate_stored_blocks fuel fuel' data trailer :
  length data < fuel → fuel ≤ fuel' →
  inflate_stored fuel' (stored_blocks fuel data ++ trailer)
  = Some (data, trailer).
Proof.
  revert fuel' data. induction fuel as [|fuel IH]; intros fuel' data Hlen Hle;
    [lia|].
  destruct fuel' as [|fuel']; [lia|].
  cbn [stored_blocks]. pose proof block_max_N as Hmax.
  pose proof (length_take_le data block_max) as Htake.
  pose proof (take_drop block_max data) as Hdata.
  set (chunk := take block_max data) in *.
  set (rest := drop block_max data) in *.
  assert (Hchunk : (N.of_nat (length chunk) <= 65535)%N).
  { subst chunk. rewrite length_take. lia. }
  set (len := N.of_nat (length chunk)) in *.
  set (hdr := match rest with [] => 1%N | _ => 0%N end).
  assert (Hhdr : (hdr < 256)%N) by (subst hdr; destruct rest; lia).
  assert (Hland : (N.land hdr 6 =? 0)%N = true) by (subst hdr; by destruct rest).
  cbn [app inflate_stored]. rewrite !to_N_byte_of by lia_div.
  assert (Hl : (len `mod` 256 + 256 * (len `div` 256))%N = len) by lia_div.
  assert (Hn : ((65535 - len) `mod` 256 + 256 * ((65535 - len) `div` 256))%N
               = (65535 - len)%N) by lia_div.
  rewrite Hl, Hn, Hland.
  assert (Hsum : (len + (65535 - len) =? 65535)%N = true)
    by (apply N.eqb_eq; lia).
  rewrite Hsum. rewrite <- app_assoc.
  match goal with
  | |- context [(len <=? ?n)%N] =>
      assert (Hfit : (len <=? n)%N = true)
        by (apply N.leb_le; rewrite length_app; lia);
      rewrite Hfit
  end.
  cbn [andb]. subst len. rewrite Nat2N.id.
  rewrite take_app_length, drop_app_length.
  subst hdr. destruct rest as [|b rest'] eqn:Hrest.
  - cbn. rewrite app_nil_r in Hdata. by rewrite Hdata.
  - cbn [N.odd]. rewrite <- Hrest. rewrite IH.
    + simpl. rewrite Hrest. by rewrite Hdata.
    + subst rest. rewrite length_drop.
      assert (length data > block_max).
      { destruct (decide (length data ≤ block_max)) as [Hd|]; [|lia].
        rewrite drop_ge in Hrest by done. done. }
      lia.
    + lia.
Qed.

Lemma stored_blocks_length fuel data :
  length data < fuel → length data < length (stored_blocks fuel data).
Proof.
  revert data. induction fuel as [|fuel IH]; intros data Hlen; [lia|].
  cbn [stored_blocks].
  pose proof (take_drop block_max data) as Hdata.
  pose proof (length_drop data block_max) as Hdrop.
  set (chunk := take block_max data) in *.
  set (rest := drop block_max data) in *.
  cbn [app length]. rewrite length_app, <- Hdata, length_app.
  destruct rest as [|b rest'] eqn:Hrest; [simpl; lia|].
  rewrite <- Hrest in *.
  assert (0 < block_max) by (pose proof block_max_N; lia).
  assert (length rest ≠ 0) by (rewrite Hrest; done).
  specialize (IH rest). lia.
Qed.

(** Decompression is a left inverse of compression at level 0. *)
Lemma zlib_decompress_compress_stored data :
  zlib_decompress_stored (zlib_compress_stored data) = Some data.
Proof.
  unfold zlib_compress_stored, zlib_decompress_stored. cbn [app].
  change (Byte.to_N Byte.x78) with 120%N. change (Byte.to_N Byte.x01) with 1%N.
  change ((120 =? 120)%N && ((120 * 256 + 1) `mod` 31 =? 0)%N
          && negb (N.testbit 1 5)) with true. cbn iota.
  rewrite inflate_stored_blocks.
  - simpl. by rewrite bool_decide_eq_true_2.
  - lia.
  - rewrite length_app. pose proof (stored_blocks_length (S (length data)) data).
    lia.
Qed.

(** With this codec the round trip holds for every text that has a UTF-8
    encoding, and for every identifier and root. *)
Lemma stored_codec_round_trip (fs : filesystem) repo_path object_hash text
    encoded calls :
  utf8_encode text = Some encoded →
  read_git_object (H:=stored_codec)
    (<[object_file repo_path object_hash
         := File (zlib_compress_stored encoded)]> fs)
    repo_path object_hash calls
  = (Ok text, calls ++ [object_hash]).
Proof.
  intros Henc. erewrite read_git_object_file by apply lookup_insert_eq.
  unfold decode_object. cbn [zlib_decompress decode_utf8 stored_codec].
  by rewrite zlib_decompress_compress_stored, (utf8_decode_encode text).
Qed.

(** ** The properties on the example repositories *)

Ltac not_in_literal :=
  apply (bool_decide_unpack _); vm_compute; exact I.

Lemma get_commit_graph_parent_and_child_witness :
  get_commit_graph (H:=stored_codec) 3 TestRepo.fs TestRepo.repo_dir
    TestRepo.commit_hash []
  = Some (Ok [(TestRepo.commit_hash, [TestRepo.parent_hash]);
              (TestRepo.parent_hash, [])],
          [TestRepo.commit_hash; TestRepo.parent_hash]).
Proof.
  apply (get_commit_graph_parent_and_child (H:=stored_codec) 3 TestRepo.fs
           TestRepo.repo_dir TestRepo.commit_hash TestRepo.parent_hash
           (py "Initial commit") (py "Parent commit") []).
  - vm_compute. reflexivity.
  - vm_compute. reflexivity.
  - apply le_n.
Defined.

Lemma each_object_read_at_most_once_witness :
  get_commit_graph (H:=stored_codec) 6 DiamondRepo.fs DiamondRepo.repo_dir
    DiamondRepo.top []
  = Some (Ok [(DiamondRepo.top, [DiamondRepo.left; DiamondRepo.right]);
              (DiamondRepo.right, [DiamondRepo.base]);
              (DiamondRepo.base, []);
              (DiamondRepo.left, [DiamondRepo.base])],
          [DiamondRepo.top; DiamondRepo.right; DiamondRepo.base;
           DiamondRepo.left])
  ∧ NoDup [DiamondRepo.top; DiamondRepo.right; DiamondRepo.base;
           DiamondRepo.left]
  ∧ while_stack (H:=stored_codec) 7 DiamondRepo.fs DiamondRepo.repo_dir
      [(DiamondRepo.base, [])] ([DiamondRepo.left] ++ [DiamondRepo.base]) []
    = while_stack (H:=stored_codec) 6 DiamondRepo.fs DiamondRepo.repo_dir
        [(DiamondRepo.base, [])] [DiamondRepo.left] [].
Proof.
  pose proof (each_object_read_at_most_once (H:=stored_codec) 6 DiamondRepo.fs
                DiamondRepo.repo_dir) as [Honce Hskip].
  assert (Hrun :
    get_commit_graph (H:=stored_codec) 6 DiamondRepo.fs DiamondRepo.repo_dir
      DiamondRepo.top []
    = Some (Ok [(DiamondRepo.top, [DiamondRepo.left; DiamondRepo.right]);
                (DiamondRepo.right, [DiamondRepo.base]);
                (DiamondRepo.base, []);
                (DiamondRepo.left, [DiamondRepo.base])],
            [DiamondRepo.top; DiamondRepo.right; DiamondRepo.base;
             DiamondRepo.left])).
  { vm_compute. reflexivity. }
  split; [exact Hrun|]. split.
  - exact (Honce _ _ _ Hrun).
  - apply Hskip. simpl. left.
Defined.

Lemma read_git_object_not_found_iff_witness :
  (∃ msg, (read_git_object (H:=stored_codec) TestRepo.fs TestRepo.repo_dir
             (py "00ff") []).1
          = Raise (FileNotFoundError msg))
  ∧ (read_git_object (H:=stored_codec) TestRepo.fs TestRepo.repo_dir
       TestRepo.commit_hash []).1
    = Ok TestRepo.commit_data
  ∧ object_file TestRepo.repo_dir TestRepo.commit_hash
    = TestRepo.repo_dir ++ py "/.git/objects/" ++ take 2 TestRepo.commit_hash
      ++ [SLASH] ++ drop 2 TestRepo.commit_hash.
Proof.
  split; [|split].
  - apply (proj1 (read_git_object_not_found_iff (H:=stored_codec) TestRepo.fs
                    TestRepo.repo_dir (py "00ff") [])).
    vm_compute. reflexivity.
  - apply (proj1 (proj2 (read_git_object_not_found_iff (H:=stored_codec)
                           TestRepo.fs TestRepo.repo_dir TestRepo.commit_hash
                           []))
             (zlib_compress_stored (default [] (utf8_encode TestRepo.commit_data)))
             (default [] (utf8_encode TestRepo.commit_data))
             TestRepo.commit_data).
    + vm_compute. reflexivity.
    + vm_compute. reflexivity.
    + vm_compute. reflexivity.
  - apply (proj2 (proj2 (read_git_object_not_found_iff (H:=stored_codec)
                           TestRepo.fs TestRepo.repo_dir TestRepo.commit_hash
                           []))).
    + discriminate.
    + reflexivity.
    + discriminate.
    + not_in_literal.
Defined.

Lemma read_git_object_round_trip_witness :
  read_git_object (H:=stored_codec)
    (<[py "/tmp/repo/.git/objects/ab/cdef0123"
         := File (zlib_compress_stored RoundTrip.encoded)]> TestRepo.fs)
    RoundTrip.repo_dir RoundTrip.object_hash []
  = (Ok RoundTrip.text, [RoundTrip.object_hash]).
Proof.
  apply (read_git_object_round_trip (H:=stored_codec) zlib_compress_stored
           utf8_encode TestRepo.fs RoundTrip.repo_dir RoundTrip.object_hash
           RoundTrip.text RoundTrip.encoded []).
  - exact zlib_decompress_compress_stored.
  - exact utf8_decode_encode.
  - discriminate.
  - reflexivity.
  - discriminate.
  - not_in_literal.
  - vm_compute. reflexivity.
Defined.

Lemma generate_plantuml_graph_text_witness :
  generate_plantuml_graph (H:=stored_codec)
    [(TestRepo.commit_hash, [TestRepo.parent_hash])] TestRepo.fs
    TestRepo.repo_dir []
  = (Ok test_diagram, [TestRepo.commit_hash; TestRepo.parent_hash])
  ∧ py "@startuml" `prefix_of` test_diagram
  ∧ py "@enduml" `suffix_of` test_diagram.
Proof.
  assert (Hrun :
    generate_plantuml_graph (H:=stored_codec)
      [(TestRepo.commit_hash, [TestRepo.parent_hash])] TestRepo.fs
      TestRepo.repo_dir []
    = (Ok test_diagram, [TestRepo.commit_hash; TestRepo.parent_hash])).
  { vm_compute. reflexivity. }
  split; [exact Hrun|].
  destruct (generate_plantuml_graph_text (H:=stored_codec) _ _ _ _ _ _ Hrun)
    as (Hprefix & Hsuffix & _).
  split; [exact Hprefix|exact Hsuffix].
Defined.

Lemma generate_plantuml_graph_decodes_witness :
  ∃ out,
    generate_plantuml_graph (H:=stored_codec)
      [(DiamondRepo.top, [DiamondRepo.left; DiamondRepo.right])]
      DiamondRepo.fs DiamondRepo.repo_dir []
    = (Ok out, [DiamondRepo.top; DiamondRepo.left; DiamondRepo.right]).
Proof.
  destruct (generate_plantuml_graph_ok (H:=stored_codec)
              [(DiamondRepo.top, [DiamondRepo.left; DiamondRepo.right])]
              DiamondRepo.fs DiamondRepo.repo_dir []) as [out Hrun].
  { repeat constructor; eexists; vm_compute; reflexivity. }
  exists out.
  destruct (generate_plantuml_graph_decodes (H:=stored_codec) _ _ _ _ _ _ Hrun)
    as (Hcalls & _ & _).
  rewrite Hrun. f_equal.
Defined.

(** C9 as stated fails: a commit with two parents is decoded once, not once
    for each parent. *)
Lemma renderer_decodes_commit_once_per_item :
  ¬ (∀ (codec : Codec) commit_graph fs repo_path calls out calls',
       generate_plantuml_graph (H:=codec) commit_graph fs repo_path calls
       = (Ok out, calls') →
       calls' ≡ₚ calls ++ per_parent_decodes commit_graph).
Proof.
  intros Hclaim.
  destruct (generate_plantuml_graph_ok (H:=stored_codec)
              [(DiamondRepo.top, [DiamondRepo.left; DiamondRepo.right])]
              DiamondRepo.fs DiamondRepo.repo_dir []) as [out Hrun].
  { repeat constructor; eexists; vm_compute; reflexivity. }
  apply Hclaim in Hrun. apply Permutation_length in Hrun. discriminate Hrun.
Qed.

(** The loop ends on a cycle of parents. *)
Example get_commit_graph_on_cycle :
  get_commit_graph (H:=stored_codec) 4 CyclicRepo.fs CyclicRepo.repo_dir
    CyclicRepo.ping []
  = Some (Ok [(CyclicRepo.ping, [CyclicRepo.pong]);
              (CyclicRepo.pong, [CyclicRepo.ping])],
          [CyclicRepo.ping; CyclicRepo.pong]).
Proof. vm_compute. reflexivity. Qed.

(** A directory at the object's path is not a missing object. *)
Example read_git_object_on_directory :
  read_git_object (H:=stored_codec) TestRepo.fs TestRepo.repo_dir (py "12") []
  = (Raise IsADirectoryError, [py "12"]).
Proof. vm_compute. reflexivity. Qed.

(** * Further properties *)

(** ** The commit text *)

Lemma str_split_app_sep sep line rest :
  sep ∉ line →
  str_split sep (line ++ sep :: rest) = line :: str_split sep rest.
Proof.
  induction line as [|c line IH]; intros Hsep; simpl.
  - by rewrite N.eqb_refl.
  - apply not_elem_of_cons in Hsep as [Hc Hline].
    rewrite (proj2 (N.eqb_neq c sep)) by done. by rewrite IH.
Qed.

Lemma str_split_unlines lines rest :
  Forall (λ line, LF ∉ line) lines →
  str_split LF (unlines lines ++ rest) = lines ++ str_split LF rest.
Proof.
  induction 1 as [|line lines Hline _ IH]; [done|].
  unfold unlines in *. rewrite fmap_cons. cbn [concat app].
  rewrite <- !app_assoc. cbn [app].
  by rewrite str_split_app_sep, IH.
Qed.

Lemma unlines_str_split text : unlines (str_split LF text) = text ++ [LF].
Proof.
  unfold unlines. induction text as [|c text IH]; [done|].
  cbn [str_split]. destruct (c =? LF)%N eqn:Hc.
  - apply N.eqb_eq in Hc as ->. rewrite fmap_cons. cbn [concat app].
    by rewrite IH.
  - destruct (str_split LF text) as [|piece pieces].
    + by destruct text.
    + rewrite fmap_cons in *. cbn [concat app] in *.
      f_equal. exact IH.
Qed.

Lemma str_split_no_sep sep s : Forall (λ piece, sep ∉ piece) (str_split sep s).
Proof.
  induction s as [|c s IH]; simpl.
  - repeat constructor. apply not_elem_of_nil.
  - destruct (c =? sep)%N eqn:Hc.
    + constructor; [apply not_elem_of_nil|done].
    + apply N.eqb_neq in Hc.
      destruct (str_split sep s) as [|piece pieces];
        [repeat constructor; by intros ->%list_elem_of_singleton|].
      apply Forall_cons in IH as [Hp Hps]. constructor; [|done].
      rewrite not_elem_of_cons. split; [congruence|done].
Qed.

Lemma str_until_no_sep sep s : sep ∉ str_until sep s.
Proof.
  induction s as [|c s IH]; simpl; [apply not_elem_of_nil|].
  destruct (c =? sep)%N eqn:Hc; [apply not_elem_of_nil|].
  apply N.eqb_neq in Hc. rewrite not_elem_of_cons. split; [congruence|done].
Qed.

Lemma str_until_subseteq sep s c : c ∈ str_until sep s → c ∈ s.
Proof.
  induction s as [|c' s IH]; simpl; [done|].
  destruct (c' =? sep)%N; [by intros ?%elem_of_nil|].
  intros [->|Hin]%elem_of_cons; [by left|right; by apply IH].
Qed.

Lemma str_until_all sep s : sep ∉ s → str_until sep s = s.
Proof.
  induction s as [|c s IH]; intros Hs; simpl; [done|].
  apply not_elem_of_cons in Hs as [Hc Hs].
  rewrite (proj2 (N.eqb_neq c sep)) by done. by rewrite IH.
Qed.

Lemma lines_before_blank_app headers rest :
  Forall (λ line, line ≠ []) headers →
  lines_before_blank (headers ++ [] :: rest) = headers.
Proof.
  induction 1 as [|line headers Hline _ IH]; simpl; [done|].
  by rewrite decide_False, IH by done.
Qed.

Lemma lines_after_blank_app headers rest :
  Forall (λ line, line ≠ []) headers →
  lines_after_blank (headers ++ [] :: rest) = rest.
Proof.
  induction 1 as [|line headers Hline _ IH]; simpl; [done|].
  by rewrite decide_False, IH by done.
Qed.

Lemma lines_before_blank_sublist lines line :
  line ∈ lines_before_blank lines → line ∈ lines.
Proof.
  induction lines as [|l lines IH]; simpl; [done|].
  destruct (decide (l = [])); [by intros ?%elem_of_nil|].
  intros [->|Hin]%elem_of_cons; [by left|right; by apply IH].
Qed.

Lemma str_lstrip_snoc s c :
  isspace c = true →
  str_lstrip (s ++ [c])
  = match str_lstrip s with [] => [] | _ => str_lstrip s ++ [c] end.
Proof.
  intros Hc. induction s as [|c' s IH]; simpl; [by rewrite Hc|].
  by destruct (isspace c').
Qed.

Lemma str_strip_snoc s c :
  isspace c = true → str_strip (s ++ [c]) = str_strip s.
Proof.
  intros Hc. unfold str_strip. rewrite str_lstrip_snoc by done.
  destruct (str_lstrip s) as [|c' t] eqn:Hs; [done|]. rewrite <- Hs.
  unfold str_rstrip. rewrite rev_app_distr. simpl. by rewrite Hc.
Qed.

Lemma parent_field_parent_line parent :
  SP ∉ parent → parent_field (parent_line parent) = parent.
Proof. intros Hp. unfold parent_field, parent_line. simpl. by apply str_until_all. Qed.

Lemma is_parent_line_parent_line parent : is_parent_line (parent_line parent) = true.
Proof. reflexivity. Qed.

Lemma filter_parent_lines before parents after :
  Forall header_line before → Forall header_line after →
  Forall plain_identifier parents →
  parent_field <$>
    List.filter is_parent_line (before ++ (parent_line <$> parents) ++ after)
  = parents.
Proof.
  intros Hb Ha Hp. rewrite !List.filter_app, !fmap_app.
  assert (Hnone : ∀ hs, Forall header_line hs → List.filter is_parent_line hs = []).
  { induction 1 as [|h hs (_ & _ & Hh) _ IH]; simpl; [done|]. by rewrite Hh. }
  rewrite (Hnone before), (Hnone after) by done. simpl. rewrite app_nil_r.
  induction Hp as [|p ps [Hsp _] _ IH]; [done|].
  rewrite fmap_cons. cbn [List.filter].
  rewrite is_parent_line_parent_line, fmap_cons.
  by rewrite parent_field_parent_line, IH.
Qed.

(** X1: a commit text laid out as git writes it (header lines, among them one
    parent line for each parent, an empty line, the body) decodes to exactly
    these parents, in order, and to the stripped body; parent lines inside the
    body add nothing. *)
Theorem commit_text_round_trip before parents after body :
  Forall header_line before → Forall header_line after →
  Forall plain_identifier parents →
  parse_commit_data
    (unlines (before ++ (parent_line <$> parents) ++ after) ++ [LF] ++ body)
  = Ok (parents, str_strip body).
Proof.
  intros Hb Ha Hp. rewrite parse_commit_data_spec.
  set (headers := before ++ (parent_line <$> parents) ++ after).
  assert (Hne : Forall (λ line, line ≠ []) headers).
  { subst headers. rewrite !Forall_app. repeat split.
    - eapply Forall_impl; [exact Hb|]. by intros ? (? & _).
    - apply Forall_fmap, Forall_true. by intros p.
    - eapply Forall_impl; [exact Ha|]. by intros ? (? & _). }
  assert (Hlf : Forall (λ line, LF ∉ line) headers).
  { subst headers. rewrite !Forall_app. repeat split.
    - eapply Forall_impl; [exact Hb|]. by intros ? (_ & ? & _).
    - apply Forall_fmap. eapply Forall_impl; [exact Hp|].
      intros p [_ Hlf]. unfold compose, parent_line. rewrite elem_of_app.
      intros [Hin|Hin]; [|done]. vm_compute in Hin.
      by repeat (apply elem_of_cons in Hin as [Hin|Hin]; [done|]);
        apply elem_of_nil in Hin.
    - eapply Forall_impl; [exact Ha|]. by intros ? (_ & ? & _). }
  rewrite str_split_unlines by done. cbn [app str_split N.eqb Pos.eqb LF].
  rewrite lines_before_blank_app, lines_after_blank_app by done.
  subst headers. rewrite filter_parent_lines by done.
  by rewrite unlines_str_split, str_strip_snoc.
Qed.

(** X2: whatever the text, the decoded message neither begins nor ends with
    a whitespace character, and no decoded parent contains a space or a
    newline. *)
Theorem parsed_fields_are_clean text parents message :
  parse_commit_data text = Ok (parents, message) →
  (∀ c, head message = Some c → isspace c = false)
  ∧ (∀ c, last message = Some c → isspace c = false)
  ∧ Forall plain_identifier parents.
Proof.
  rewrite parse_commit_data_spec. intros [= <- <-].
  destruct (str_strip_spec
              (unlines (lines_after_blank (str_split LF text))))
    as (lead & trail & _ & _ & _ & Hhead & Hlast).
  split; [done|split; [done|]].
  apply Forall_fmap, Forall_forall. intros line Hin.
  apply list_elem_of_In, List.filter_In in Hin as [Hin _].
  apply list_elem_of_In, lines_before_blank_sublist in Hin.
  pose proof (str_split_no_sep LF text) as Hlf.
  rewrite Forall_forall in Hlf. specialize (Hlf _ Hin).
  split; [apply str_until_no_sep|].
  intros Hc%str_until_subseteq. apply Hlf.
  rewrite <- (take_drop 7 line), elem_of_app. by right.
Qed.

(** ** The graph and the reachable commits *)

Section GraphFacts.
Context `{Codec}.
Implicit Types (fs : filesystem) (repo_path start : str) (commit_graph : dict).

Lemma elem_of_snoc {A} (l : list A) x y : x ∈ l ++ [y] ↔ x ∈ l ∨ x = y.
Proof. by rewrite elem_of_app, list_elem_of_singleton. Qed.

Lemma graph_invariant_skip fs repo_path start commit_graph stack current :
  current ∈ commit_graph.*1 →
  graph_invariant fs repo_path start commit_graph (stack ++ [current]) →
  graph_invariant fs repo_path start commit_graph stack.
Proof.
  intros Hin (Hnd & Hval & Hreach & Hstart & Hclosed).
  split; [done|]. split; [done|]. split; [|split].
  - intros k [Hk|Hk]; apply Hreach; [by left|right].
    apply elem_of_app. by left.
  - rewrite elem_of_snoc in Hstart.
    destruct Hstart as [?|[?| ->]]; [by left|by right|by left].
  - intros k ps p Hk Hp. specialize (Hclosed k ps p Hk Hp).
    rewrite elem_of_snoc in Hclosed.
    destruct Hclosed as [?|[?| ->]]; [by left|by right|by left].
Qed.

Lemma graph_invariant_visit fs repo_path start commit_graph stack current
    parents message :
  current ∉ commit_graph.*1 →
  commit_result fs repo_path current = Ok (parents, message) →
  graph_invariant fs repo_path start commit_graph (stack ++ [current]) →
  graph_invariant fs repo_path start (commit_graph ++ [(current, parents)])
    (stack ++ parents).
Proof.
  intros Hin Hr (Hnd & Hval & Hreach & Hstart & Hclosed).
  assert (Hcur : reachable fs repo_path start current).
  { apply Hreach. right. apply elem_of_app. right. by left. }
  unfold graph_invariant. rewrite fmap_app. cbn [fmap list_fmap fst].
  split; [|split; [|split; [|split]]].
  - apply NoDup_app. split; [done|]. split; [|apply NoDup_singleton].
    by intros k Hk ->%list_elem_of_singleton.
  - intros k ps. rewrite elem_of_snoc.
    intros [Hk|[= -> ->]]; [by apply Hval|by eexists].
  - intros k. rewrite elem_of_snoc, elem_of_app.
    intros [[Hk| ->]|[Hk|Hk]].
    + apply Hreach. by left.
    + done.
    + apply Hreach. right. apply elem_of_app. by left.
    + by eapply reachable_parent.
  - rewrite elem_of_snoc in Hstart. rewrite elem_of_snoc, elem_of_app.
    destruct Hstart as [?|[?| ->]]; tauto.
  - intros k ps p. rewrite !elem_of_snoc, elem_of_app.
    intros [Hk|[= -> ->]] Hp; [|tauto].
    specialize (Hclosed k ps p Hk Hp). rewrite elem_of_snoc in Hclosed.
    destruct Hclosed as [?|[?| ->]]; tauto.
Qed.

Lemma while_stack_invariant fuel fs repo_path start commit_graph stack calls
    result calls' :
  graph_invariant fs repo_path start commit_graph stack →
  while_stack fuel fs repo_path commit_graph stack calls
  = Some (result, calls') →
  match result with
  | Ok final =>
      graph_invariant fs repo_path start final []
      ∧ ∃ added, final = commit_graph ++ added ∧ calls' = calls ++ added.*1
  | Raise e =>
      ∃ seen h,
        reachable fs repo_path start h
        ∧ commit_result fs repo_path h = Raise e
        ∧ calls' = calls ++ seen ++ [h]
  end.
Proof.
  revert commit_graph stack calls.
  induction fuel as [|fuel IH]; intros commit_graph stack calls Hinv Hrun;
    [done|].
  destruct stack as [|current stack _] using rev_ind.
  { rewrite while_stack_empty in Hrun. simplify_eq. split; [done|].
    exists []. by rewrite !app_nil_r. }
  destruct (decide (current ∈ commit_graph.*1)) as [Hin|Hin].
  { rewrite while_stack_skip in Hrun by done.
    eapply IH; [|exact Hrun]. by eapply graph_invariant_skip. }
  destruct (commit_result fs repo_path current) as [[parents message]|e] eqn:Hr.
  - erewrite while_stack_visit in Hrun by done.
    apply IH in Hrun; [|by eapply graph_invariant_visit].
    destruct result as [final|e]; [|].
    + destruct Hrun as (Hfinal & added & -> & ->). split; [done|].
      exists ((current, parents) :: added).
      by rewrite <- !app_assoc.
    + destruct Hrun as (seen & h & Hh & He & ->).
      exists (current :: seen), h. by rewrite <- !app_assoc.
  - erewrite while_stack_fail in Hrun by done. simplify_eq.
    exists [], current. split; [|done].
    destruct Hinv as (_ & _ & Hreach & _). apply Hreach. right.
    apply elem_of_app. right. by left.
Qed.

Lemma graph_invariant_initial fs repo_path start :
  graph_invariant fs repo_path start [] [start].
Proof.
  split; [apply NoDup_nil_2|]. split; [by intros k ps ?%elem_of_nil|].
  split; [|split].
  - intros k [?%elem_of_nil| ->%list_elem_of_singleton]; [done|].
    apply reachable_start.
  - right. by left.
  - by intros k ps p ?%elem_of_nil.
Qed.

Lemma graph_invariant_reachable fs repo_path start commit_graph h :
  graph_invariant fs repo_path start commit_graph [] →
  reachable fs repo_path start h → h ∈ commit_graph.*1.
Proof.
  intros (_ & Hval & _ & Hstart & Hclosed).
  induction 1 as [|h parents message parent _ IH Hr Hp].
  - by destruct Hstart as [?|?%elem_of_nil].
  - apply list_elem_of_fmap in IH as ([k ps] & -> & Hk). simpl in *.
    destruct (Hval _ _ Hk) as [m Hm]. rewrite Hr in Hm. simplify_eq.
    by destruct (Hclosed _ _ _ Hk Hp) as [?|?%elem_of_nil].
Qed.

(** X6: a graph returned by [get_commit_graph] has distinct keys, the first
    of them the starting identifier; each value is the parent list decoded
    from its key; every parent listed is itself a key; and the objects read
    are the keys, each once, in the order of the keys. *)
Theorem get_commit_graph_sound fuel fs repo_path start calls commit_graph calls' :
  get_commit_graph fuel fs repo_path start calls = Some (Ok commit_graph, calls') →
  NoDup commit_graph.*1
  ∧ head commit_graph.*1 = Some start
  ∧ (∀ commit parents, (commit, parents) ∈ commit_graph →
       ∃ message, commit_result fs repo_path commit = Ok (parents, message))
  ∧ (∀ commit parents parent, (commit, parents) ∈ commit_graph →
       parent ∈ parents → parent ∈ commit_graph.*1)
  ∧ calls' = calls ++ commit_graph.*1.
Proof.
  unfold get_commit_graph. intros Hrun.
  pose proof (while_stack_invariant _ _ _ start _ _ _ _ _
                (graph_invariant_initial fs repo_path start) Hrun)
    as ((Hnd & Hval & _ & _ & Hclosed) & added & Hfinal & Hcalls).
  simpl in Hfinal. subst added.
  split; [done|]. split; [|split; [done|split; [|done]]].
  - destruct fuel as [|fuel]; [done|]. change [start] with ([] ++ [start]) in Hrun.
    destruct (commit_result fs repo_path start) as [[parents message]|e] eqn:Hr.
    + erewrite while_stack_visit in Hrun by (done || apply not_elem_of_nil).
      eapply (while_stack_invariant _ _ _ start) in Hrun
        as (_ & added & -> & _); [done|].
      rewrite <- (app_nil_l [(start, parents)]), <- (app_nil_l parents).
      eapply graph_invariant_visit; [apply not_elem_of_nil|done|].
      apply graph_invariant_initial.
    + by erewrite while_stack_fail in Hrun by (done || apply not_elem_of_nil).
  - intros commit parents parent Hc Hp.
    by destruct (Hclosed _ _ _ Hc Hp) as [?|?%elem_of_nil].
Qed.

(** X7: the keys of a returned graph are exactly the identifiers reachable
    from the starting one through parent links. *)
Theorem get_commit_graph_keys_reachable fuel fs repo_path start calls
    commit_graph calls' :
  get_commit_graph fuel fs repo_path start calls = Some (Ok commit_graph, calls') →
  ∀ h, h ∈ commit_graph.*1 ↔ reachable fs repo_path start h.
Proof.
  unfold get_commit_graph. intros Hrun h.
  pose proof (while_stack_invariant _ _ _ start _ _ _ _ _
                (graph_invariant_initial fs repo_path start) Hrun)
    as (Hinv & _).
  split.
  - intros Hh. destruct Hinv as (_ & _ & Hreach & _). apply Hreach. by left.
  - by apply graph_invariant_reachable.
Qed.

(** X8: [get_commit_graph] raises exactly when some identifier reachable from
    the start fails to decode; the exception is the one of the last object
    read, a reachable one, and no graph is returned. *)
Theorem get_commit_graph_raises_iff fuel fs repo_path start calls result calls' :
  get_commit_graph fuel fs repo_path start calls = Some (result, calls') →
  ((∃ e, result = Raise e)
   ↔ ∃ h, reachable fs repo_path start h ∧ ¬ decodes fs repo_path h)
  ∧ (∀ e, result = Raise e →
       ∃ seen h,
         reachable fs repo_path start h
         ∧ commit_result fs repo_path h = Raise e
         ∧ calls' = calls ++ seen ++ [h]).
Proof.
  unfold get_commit_graph. intros Hrun.
  pose proof (while_stack_invariant _ _ _ start _ _ _ _ _
                (graph_invariant_initial fs repo_path start) Hrun) as Hpost.
  split; [split|].
  - intros [e ->]. destruct Hpost as (seen & h & Hh & He & _).
    exists h. split; [done|]. intros [data Hd]. congruence.
  - intros (h & Hh & Hdec). destruct result as [final|e]; [|by eexists].
    destruct Hpost as (Hinv & _). exfalso. apply Hdec.
    pose proof (graph_invariant_reachable _ _ _ _ _ Hinv Hh) as Hkey.
    apply list_elem_of_fmap in Hkey as ([k ps] & -> & Hk).
    destruct Hinv as (_ & Hval & _). destruct (Hval _ _ Hk) as [m Hm].
    by eexists.
  - intros e ->. exact Hpost.
Qed.

(** X9: the two steps of [main] compose: on the graph [get_commit_graph]
    returned, [generate_plantuml_graph] (same repository) never raises; it
    reads every key again, and each parent once per edge. *)
Theorem render_after_build_succeeds fuel fs repo_path start calls commit_graph
    calls' calls'' :
  get_commit_graph fuel fs repo_path start calls = Some (Ok commit_graph, calls') →
  ∃ out,
    generate_plantuml_graph commit_graph fs repo_path calls''
    = (Ok out, calls'' ++ decode_order commit_graph).
Proof.
  unfold get_commit_graph. intros Hrun.
  pose proof (while_stack_invariant _ _ _ start _ _ _ _ _
                (graph_invariant_initial fs repo_path start) Hrun)
    as ((_ & Hval & _ & _ & Hclosed) & _).
  apply generate_plantuml_graph_ok. apply Forall_forall. intros [k ps] Hk.
  split; simpl.
  - destruct (Hval _ _ Hk) as [m Hm]. by eexists.
  - apply Forall_forall. intros p Hp.
    destruct (Hclosed _ _ _ Hk Hp) as [Hkey|?%elem_of_nil]; [|done].
    apply list_elem_of_fmap in Hkey as ([k' ps'] & -> & Hk').
    destruct (Hval _ _ Hk') as [m Hm]. by eexists.
Qed.
End GraphFacts.

(** ** Errors, paths and the renderer *)

Section ErrorsAndPaths.
Context `{Codec}.
Implicit Types (fs : filesystem) (repo_path : str) (commit_graph : dict).

(** X3: [get_commit_data] raises only what [read_git_object] raised; on a
    text that was read it returns the decoded fields; either way it makes
    exactly one read. *)
Theorem get_commit_data_fails_only_on_read fs repo_path commit_hash calls :
  (∀ e, (get_commit_data fs repo_path commit_hash calls).1 = Raise e
        ↔ (read_git_object fs repo_path commit_hash calls).1 = Raise e)
  ∧ (∀ text, (read_git_object fs repo_path commit_hash calls).1 = Ok text →
       (get_commit_data fs repo_path commit_hash calls).1
       = parse_commit_data text)
  ∧ (get_commit_data fs repo_path commit_hash calls).2
    = calls ++ [commit_hash].
Proof.
  unfold get_commit_data, mbind, M_bind, bind, lift.
  rewrite (read_git_object_run _ _ _ calls).
  destruct (read_git_object fs repo_path commit_hash []).1 as [text|e'] eqn:Hr;
    cbn [fst snd].
  - split; [|split; [by intros ? [= ->]|done]].
    intros e. rewrite parse_commit_data_spec. split; intros [=].
  - split; [intros e; split; by intros [= ->]|].
    split; [by intros text [=]|done].
Qed.

Lemma path_join2_absolute path b :
  str_startswith b [SLASH] = true → path_join2 path b = b.
Proof. intros Hb. unfold path_join2. by rewrite Hb. Qed.

Lemma str_startswith_head s c :
  s !! 0%nat = Some c → str_startswith s [c] = true.
Proof. destruct s as [|c' s]; [done|]. intros [= ->]. simpl. by rewrite N.eqb_refl. Qed.

(** X4: an identifier whose first or third character is a slash makes
    [os.path.join] drop the repository root: the file read is the same for
    every root. *)
Theorem object_file_ignores_root repo_path repo_path' object_hash :
  object_hash !! 0%nat = Some SLASH ∨ object_hash !! 2%nat = Some SLASH →
  object_file repo_path object_hash = object_file repo_path' object_hash.
Proof.
  unfold object_file, os_path_join. cbn [foldl]. intros [H0|H2].
  - assert (Ht : str_startswith (take 2 object_hash) [SLASH] = true).
    { apply str_startswith_head. by destruct object_hash as [|? [|? ?]]. }
    by rewrite !(path_join2_absolute _ (take 2 object_hash)).
  - assert (Hd : str_startswith (drop 2 object_hash) [SLASH] = true).
    { assert (Hl : drop 2 object_hash !! 0%nat = Some SLASH)
        by (by rewrite lookup_drop).
      by apply str_startswith_head. }
    by rewrite !(path_join2_absolute _ (drop 2 object_hash)).
Qed.

Lemma app_sep_inj (sep : N) (a a' b b' : str) :
  sep ∉ a → sep ∉ a' → a ++ sep :: b = a' ++ sep :: b' → a = a' ∧ b = b'.
Proof.
  revert a'. induction a as [|c a IH]; intros [|c' a'] Ha Ha' Heq;
    simpl in Heq.
  - by injection Heq as ->.
  - injection Heq as <- _. exfalso. apply Ha'. by left.
  - injection Heq as -> _. exfalso. apply Ha. by left.
  - injection Heq as -> Heq.
    apply not_elem_of_cons in Ha as [_ Ha].
    apply not_elem_of_cons in Ha' as [_ Ha'].
    by destruct (IH a' Ha Ha' Heq) as [-> ->].
Qed.

(** X5: under a root that is not empty and has no final slash, two different
    identifiers (not empty, without slash) never name the same object
    file. *)
Theorem object_file_injective repo_path h1 h2 :
  repo_path ≠ [] → str_endswith repo_path [SLASH] = false →
  h1 ≠ [] → SLASH ∉ h1 → h2 ≠ [] → SLASH ∉ h2 →
  h1 ≠ h2 →
  object_file repo_path h1 ≠ object_file repo_path h2.
Proof.
  intros Hroot Hend Hne1 Hs1 Hne2 Hs2 Hdiff.
  rewrite !object_file_shape by done.
  intros Heq%app_inv_head%app_inv_head.
  apply app_sep_inj in Heq as [Ht Hd].
  - apply Hdiff.
    by rewrite <- (take_drop 2 h1), <- (take_drop 2 h2), Ht, Hd.
  - intros Hin. apply Hs1. rewrite <- (take_drop 2 h1), elem_of_app. by left.
  - intros Hin. apply Hs2. rewrite <- (take_drop 2 h2), elem_of_app. by left.
Qed.

Lemma for_parents_raise fs repo_path commit commit_message parents code calls
    e calls' :
  for_parents fs repo_path commit commit_message parents code calls
  = (Raise e, calls') →
  ∃ seen h rest,
    parents = seen ++ h :: rest
    ∧ Forall (decodes fs repo_path) seen
    ∧ commit_result fs repo_path h = Raise e
    ∧ calls' = calls ++ seen ++ [h].
Proof.
  revert code calls. induction parents as [|parent rest IH];
    intros code calls Hrun; [done|].
  cbn [for_parents] in Hrun. unfold mbind, M_bind, bind in Hrun.
  rewrite get_commit_data_run in Hrun.
  destruct (commit_result fs repo_path parent) as [[ps msg]|e'] eqn:Hp.
  - apply IH in Hrun as (seen & h & rest' & -> & Hseen & Hh & ->).
    exists (parent :: seen), h, rest'. split; [done|].
    split; [constructor; [by eexists|done]|]. split; [done|].
    by rewrite <- !app_assoc.
  - simplify_eq. exists [], parent, rest. by repeat split.
Qed.

Lemma for_items_raise fs repo_path items code calls e calls' :
  for_items fs repo_path items code calls = (Raise e, calls') →
  ∃ seen h rest,
    decode_order items = seen ++ h :: rest
    ∧ Forall (decodes fs repo_path) seen
    ∧ commit_result fs repo_path h = Raise e
    ∧ calls' = calls ++ seen ++ [h].
Proof.
  revert code calls. induction items as [|[commit parents] items IH];
    intros code calls Hrun; [done|].
  cbn [for_items] in Hrun. unfold mbind, M_bind, bind in Hrun.
  rewrite get_commit_data_run in Hrun. unfold decode_order.
  rewrite bind_cons. cbn [fst snd]. fold (decode_order items).
  destruct (commit_result fs repo_path commit) as [[ps msg]|e'] eqn:Hc.
  - destruct (for_parents fs repo_path commit
                (str_join [] (str_split_ws msg)) parents code
                (calls ++ [commit])) as [[code'|e''] calls''] eqn:Hps.
    + pose proof (for_parents_decodes _ _ _ _ _ _ _ _ _ Hps) as Hdec.
      rewrite for_parents_ok in Hps by done. simplify_eq.
      apply IH in Hrun as (seen & h & rest & -> & Hseen & Hh & ->).
      exists (commit :: parents ++ seen), h, rest.
      split; [simpl; by rewrite <- ?app_assoc|].
      split; [constructor; [by eexists|by apply Forall_app]|].
      split; [done|]. simpl. by rewrite <- ?app_assoc.
    + simplify_eq.
      apply for_parents_raise in Hps as (seen & h & rest & -> & Hseen & Hh & ->).
      exists (commit :: seen), h, (rest ++ decode_order items).
      split; [simpl; by rewrite <- ?app_assoc|].
      split; [constructor; [by eexists|done]|]. split; [done|].
      simpl. by rewrite <- ?app_assoc.
  - simplify_eq. exists [], commit, (parents ++ decode_order items).
    by repeat split.
Qed.

(** X11: when [generate_plantuml_graph] raises, the exception is that of the
    first identifier, in the order of its decodes, that fails to decode; the
    ones before it were decoded and nothing after it is read. *)
Theorem generate_plantuml_graph_first_failure commit_graph fs repo_path calls
    e calls' :
  generate_plantuml_graph commit_graph fs repo_path calls = (Raise e, calls') →
  ∃ seen h rest,
    decode_order commit_graph = seen ++ h :: rest
    ∧ Forall (decodes fs repo_path) seen
    ∧ commit_result fs repo_path h = Raise e
    ∧ calls' = calls ++ seen ++ [h].
Proof.
  unfold generate_plantuml_graph, mbind, M_bind, bind. intros Hrun.
  destruct (for_items fs repo_path commit_graph (py "@startuml" ++ [LF]) calls)
    as [[code|e'] calls''] eqn:Hitems; [done|]. simplify_eq.
  by eapply for_items_raise.
Qed.

(** X10: [generate_plantuml_graph] returns a text exactly when every key and
    every parent of the graph decodes: a key that does not decode makes it
    raise even if the key has no parents. *)
Theorem generate_plantuml_graph_returns_iff commit_graph fs repo_path calls :
  (∃ out calls',
     generate_plantuml_graph commit_graph fs repo_path calls = (Ok out, calls'))
  ↔ Forall (decodes fs repo_path) (decode_order commit_graph).
Proof.
  assert (Hiff : Forall (item_decodes fs repo_path) commit_graph
                 ↔ Forall (decodes fs repo_path) (decode_order commit_graph)).
  { unfold decode_order. induction commit_graph as [|[c ps] rest IH].
    - split; constructor.
    - rewrite bind_cons, Forall_cons, Forall_app, Forall_cons, IH.
      unfold item_decodes. simpl. tauto. }
  rewrite <- Hiff. split.
  - intros (out & calls' & Hrun).
    by apply generate_plantuml_graph_run in Hrun as (Hdec & _).
  - intros Hdec. destruct (generate_plantuml_graph_ok _ _ _ calls Hdec) as [out Hrun].
    by do 2 eexists.
Qed.

(** X12: a graph without edges (every parent list empty) gives the diagram
    with the two markers only, although every key is still read. *)
Theorem generate_plantuml_graph_no_edges commit_graph fs repo_path calls :
  Forall (λ item, item.2 = []) commit_graph →
  Forall (decodes fs repo_path) commit_graph.*1 →
  generate_plantuml_graph commit_graph fs repo_path calls
  = (Ok (py "@startuml" ++ [LF] ++ py "@enduml"), calls ++ commit_graph.*1).
Proof.
  intros Hnone Hdec.
  assert (Hitems : Forall (item_decodes fs repo_path) commit_graph).
  { apply Forall_forall. intros [c ps] Hin.
    rewrite Forall_forall in Hnone. rewrite Forall_forall in Hdec.
    specialize (Hnone _ Hin). simpl in Hnone. subst ps. split; simpl.
    - apply Hdec. apply list_elem_of_fmap. by exists (c, []).
    - constructor. }
  destruct (generate_plantuml_graph_ok _ _ _ calls Hitems) as [out Hrun].
  pose proof (generate_plantuml_graph_run _ _ _ _ _ _ Hrun) as (_ & Hout & _).
  rewrite Hrun. f_equal.
  - f_equal. rewrite Hout.
    assert (Hedges : edges commit_graph = []).
    { clear -Hnone. unfold edges.
      induction Hnone as [|[c ps] rest Hps _ IH]; [done|].
      rewrite bind_cons, IH. simpl in *. by subst ps. }
    by rewrite Hedges.
  - f_equal. clear -Hnone. unfold decode_order.
    induction Hnone as [|[c ps] rest Hps _ IH]; [done|].
    rewrite bind_cons, IH. simpl in *. by subst ps.
Qed.
End ErrorsAndPaths.

Lemma str_endswith_snoc s c : str_endswith (s ++ [c]) [c] = true.
Proof.
  unfold str_endswith. rewrite rev_app_distr. simpl. by rewrite N.eqb_refl.
Qed.

(** X13: an identifier of at most two characters leaves nothing for the file
    name: the path derived ends with a slash, the path of a directory. *)
Theorem object_file_short_identifier repo_path object_hash :
  repo_path ≠ [] → str_endswith repo_path [SLASH] = false →
  SLASH ∉ object_hash → length object_hash ≤ 2 →
  object_file repo_path object_hash
  = repo_path ++ py "/.git/objects/" ++ object_hash
    ++ match object_hash with [] => [] | _ => [SLASH] end
  ∧ str_endswith (object_file repo_path object_hash) [SLASH] = true.
Proof.
  intros Hroot Hend Hslash Hlen.
  assert (Hpath : object_file repo_path object_hash
                  = repo_path ++ py "/.git/objects/" ++ object_hash
                    ++ match object_hash with [] => [] | _ => [SLASH] end).
  { destruct object_hash as [|c rest] eqn:Hh.
    - unfold object_file, os_path_join. cbn [foldl take drop].
      rewrite (path_join2_plain repo_path (py ".git")) by (done || not_in_literal).
      rewrite (path_join2_plain _ (py "objects")).
      2:{ by destruct repo_path. }
      2:{ rewrite app_assoc.
          apply (str_endswith_slash_nonempty_suffix _ (py ".git")); [done|].
          not_in_literal. }
      2:{ not_in_literal. }
      rewrite (path_join2_plain
                 ((repo_path ++ [SLASH] ++ py ".git") ++ [SLASH] ++ py "objects")
                 []).
      2:{ by destruct repo_path. }
      2:{ rewrite !app_assoc.
          apply (str_endswith_slash_nonempty_suffix _ (py "objects")); [done|].
          not_in_literal. }
      2:{ apply not_elem_of_nil. }
      unfold path_join2. cbn [str_startswith].
      change ([SLASH] ++ []) with [SLASH].
      rewrite str_endswith_snoc, orb_true_r.
      rewrite !app_nil_r. by rewrite <- !app_assoc.
    - rewrite <- Hh in *. rewrite object_file_shape by (done || by subst).
      rewrite take_ge, drop_ge by done.
      by rewrite app_nil_r, Hh. }
  split; [exact Hpath|]. rewrite Hpath.
  destruct object_hash as [|c rest].
  - change (py "/.git/objects/" ++ [] ++ [])
      with (py "/.git/objects" ++ [SLASH]).
    rewrite app_assoc. apply str_endswith_snoc.
  - rewrite !app_assoc. apply str_endswith_snoc.
Qed.

(** ** The further properties on the example repositories *)

Ltac header_line_literal :=
  split; [discriminate|split; [not_in_literal|reflexivity]].

Ltac forall_literal tac :=
  repeat (apply Forall_cons_2; [tac|]); apply Forall_nil_2.

Lemma commit_text_round_trip_witness :
  parse_commit_data TestRepo.commit_data
  = Ok ([TestRepo.parent_hash], py "Initial commit").
Proof.
  refine (commit_text_round_trip
            [py "tree abcdef1234567890abcdef1234567890abcdef12"]
            [TestRepo.parent_hash]
            [py "author Test Author <test@example.com> 1695584200 +0000";
             py "committer Test Author <test@example.com> 1695584200 +0000"]
            (py "Initial commit" ++ [LF]) _ _ _).
  - forall_literal header_line_literal.
  - forall_literal header_line_literal.
  - forall_literal ltac:(split; not_in_literal).
Defined.

Lemma parsed_fields_are_clean_witness :
  (∀ c, head (py "Initial commit") = Some c → isspace c = false)
  ∧ (∀ c, last (py "Initial commit") = Some c → isspace c = false)
  ∧ Forall plain_identifier [TestRepo.parent_hash].
Proof.
  apply (parsed_fields_are_clean TestRepo.commit_data). reflexivity.
Defined.

Lemma get_commit_data_fails_only_on_read_witness :
  (get_commit_data (H:=stored_codec) TestRepo.fs TestRepo.repo_dir
     TestRepo.commit_hash []).1
  = parse_commit_data TestRepo.commit_data
  ∧ (get_commit_data (H:=stored_codec) TestRepo.fs TestRepo.repo_dir
       (py "00ff") []).1
    = Raise (FileNotFoundError (py "Git object 00ff not found")).
Proof.
  split.
  - apply (proj1 (proj2 (get_commit_data_fails_only_on_read (H:=stored_codec)
                           TestRepo.fs TestRepo.repo_dir TestRepo.commit_hash
                           []))).
    vm_compute. reflexivity.
  - apply (proj1 (get_commit_data_fails_only_on_read (H:=stored_codec)
                    TestRepo.fs TestRepo.repo_dir (py "00ff") [])).
    vm_compute. reflexivity.
Defined.

Lemma object_file_ignores_root_witness :
  object_file (py "/tmp/repo") (py "ab/etc/passwd")
  = object_file (py "/srv/other") (py "ab/etc/passwd")
  ∧ object_file (py "/srv/other") (py "ab/etc/passwd") = py "/etc/passwd".
Proof.
  split; [|reflexivity].
  apply (object_file_ignores_root (py "/tmp/repo") (py "/srv/other")
           (py "ab/etc/passwd")).
  right. reflexivity.
Defined.

Lemma object_file_injective_witness :
  object_file TestRepo.repo_dir TestRepo.commit_hash
  ≠ object_file TestRepo.repo_dir TestRepo.parent_hash.
Proof.
  apply (object_file_injective TestRepo.repo_dir TestRepo.commit_hash
           TestRepo.parent_hash).
  - discriminate.
  - reflexivity.
  - discriminate.
  - not_in_literal.
  - discriminate.
  - not_in_literal.
  - discriminate.
Defined.

Lemma get_commit_graph_sound_witness :
  let commit_graph :=
    [(DiamondRepo.top, [DiamondRepo.left; DiamondRepo.right]);
     (DiamondRepo.right, [DiamondRepo.base]);
     (DiamondRepo.base, []);
     (DiamondRepo.left, [DiamondRepo.base])] in
  NoDup commit_graph.*1
  ∧ head commit_graph.*1 = Some DiamondRepo.top
  ∧ (∀ commit parents, (commit, parents) ∈ commit_graph →
       ∃ message,
         commit_result (H:=stored_codec) DiamondRepo.fs DiamondRepo.repo_dir
           commit = Ok (parents, message))
  ∧ (∀ commit parents parent, (commit, parents) ∈ commit_graph →
       parent ∈ parents → parent ∈ commit_graph.*1)
  ∧ [DiamondRepo.top; DiamondRepo.right; DiamondRepo.base; DiamondRepo.left]
    = [] ++ commit_graph.*1.
Proof.
  apply (get_commit_graph_sound (H:=stored_codec) 6 DiamondRepo.fs
           DiamondRepo.repo_dir DiamondRepo.top []).
  vm_compute. reflexivity.
Defined.

Lemma get_commit_graph_keys_reachable_witness :
  reachable (H:=stored_codec) DiamondRepo.fs DiamondRepo.repo_dir
    DiamondRepo.top DiamondRepo.base.
Proof.
  apply (get_commit_graph_keys_reachable (H:=stored_codec) 6 DiamondRepo.fs
           DiamondRepo.repo_dir DiamondRepo.top []
           [(DiamondRepo.top, [DiamondRepo.left; DiamondRepo.right]);
            (DiamondRepo.right, [DiamondRepo.base]);
            (DiamondRepo.base, []);
            (DiamondRepo.left, [DiamondRepo.base])]
           [DiamondRepo.top; DiamondRepo.right; DiamondRepo.base;
            DiamondRepo.left]).
  - vm_compute. reflexivity.
  - simpl. do 2 right. left.
Defined.

Lemma get_commit_graph_raises_iff_witness :
  get_commit_graph (H:=stored_codec) 3 ShallowRepo.fs ShallowRepo.repo_dir
    ShallowRepo.tip []
  = Some (Raise (FileNotFoundError (py "Git object d4e5f6 not found")),
          [ShallowRepo.tip; ShallowRepo.gone])
  ∧ ∃ h, reachable (H:=stored_codec) ShallowRepo.fs ShallowRepo.repo_dir
           ShallowRepo.tip h
         ∧ ¬ decodes (H:=stored_codec) ShallowRepo.fs ShallowRepo.repo_dir h.
Proof.
  assert (Hrun :
    get_commit_graph (H:=stored_codec) 3 ShallowRepo.fs ShallowRepo.repo_dir
      ShallowRepo.tip []
    = Some (Raise (FileNotFoundError (py "Git object d4e5f6 not found")),
            [ShallowRepo.tip; ShallowRepo.gone])).
  { vm_compute. reflexivity. }
  split; [exact Hrun|].
  apply (proj1 (get_commit_graph_raises_iff (H:=stored_codec) _ _ _ _ _ _ _
                  Hrun)).
  by eexists.
Defined.

Lemma render_after_build_succeeds_witness :
  ∃ out,
    generate_plantuml_graph (H:=stored_codec)
      [(TestRepo.commit_hash, [TestRepo.parent_hash]); (TestRepo.parent_hash, [])]
      TestRepo.fs TestRepo.repo_dir
      [TestRepo.commit_hash; TestRepo.parent_hash]
    = (Ok out,
       [TestRepo.commit_hash; TestRepo.parent_hash]
       ++ [TestRepo.commit_hash; TestRepo.parent_hash; TestRepo.parent_hash]).
Proof.
  apply (render_after_build_succeeds (H:=stored_codec) 3 TestRepo.fs
           TestRepo.repo_dir TestRepo.commit_hash []
           [(TestRepo.commit_hash, [TestRepo.parent_hash]);
            (TestRepo.parent_hash, [])]
           [TestRepo.commit_hash; TestRepo.parent_hash]).
  vm_compute. reflexivity.
Defined.

Lemma generate_plantuml_graph_returns_iff_witness :
  ¬ ∃ out calls',
      generate_plantuml_graph (H:=stored_codec) [(py "00ff", [])]
        TestRepo.fs TestRepo.repo_dir []
      = (Ok out, calls').
Proof.
  intros Hret.
  apply (proj1 (generate_plantuml_graph_returns_iff (H:=stored_codec)
                  [(py "00ff", [])] TestRepo.fs TestRepo.repo_dir [])) in Hret.
  apply Forall_cons in Hret as [[data Hdata] _].
  vm_compute in Hdata. discriminate Hdata.
Defined.

Lemma generate_plantuml_graph_first_failure_witness :
  ∃ seen h rest,
    decode_order [(TestRepo.parent_hash, [py "00ff"; TestRepo.commit_hash])]
    = seen ++ h :: rest
    ∧ Forall (decodes (H:=stored_codec) TestRepo.fs TestRepo.repo_dir) seen
    ∧ commit_result (H:=stored_codec) TestRepo.fs TestRepo.repo_dir h
      = Raise (FileNotFoundError (py "Git object 00ff not found"))
    ∧ [TestRepo.parent_hash; py "00ff"] = [] ++ seen ++ [h].
Proof.
  apply (generate_plantuml_graph_first_failure (H:=stored_codec)
           [(TestRepo.parent_hash, [py "00ff"; TestRepo.commit_hash])]
           TestRepo.fs TestRepo.repo_dir []).
  vm_compute. reflexivity.
Defined.

Lemma generate_plantuml_graph_no_edges_witness :
  generate_plantuml_graph (H:=stored_codec) [(TestRepo.parent_hash, [])]
    TestRepo.fs TestRepo.repo_dir []
  = (Ok (py "@startuml" ++ [LF] ++ py "@enduml"), [TestRepo.parent_hash]).
Proof.
  apply (generate_plantuml_graph_no_edges (H:=stored_codec)
           [(TestRepo.parent_hash, [])] TestRepo.fs TestRepo.repo_dir []).
  - forall_literal ltac:(cbn beta; reflexivity).
  - forall_literal ltac:(exists ([], py "Parent commit"); vm_compute;
                         reflexivity).
Defined.

Lemma object_file_short_identifier_witness :
  object_file TestRepo.repo_dir (py "12") = py "/tmp/repo/.git/objects/12/"
  ∧ str_endswith (object_file TestRepo.repo_dir (py "12")) [SLASH] = true.
Proof.
  apply (object_file_short_identifier TestRepo.repo_dir (py "12")).
  - discriminate.
  - reflexivity.
  - not_in_literal.
  - simpl. lia.
Defined.

(** ** The number of passes of the loop *)

Section Passes.
Context `{Codec}.
Implicit Types (fs : filesystem) (repo_path start : str) (commit_graph : dict).

Lemma edges_app commit_graph added :
  edges (commit_graph ++ added) = edges commit_graph ++ edges added.
Proof. unfold edges. apply bind_app. Qed.

Lemma edges_cons_length commit parents added :
  length (edges ((commit, parents) :: added))
  = (length parents + length (edges added))%nat.
Proof. unfold edges. by rewrite bind_cons, length_app, length_fmap. Qed.

Lemma while_stack_passes fuel fs repo_path commit_graph stack calls final calls' :
  while_stack fuel fs repo_path commit_graph stack calls
  = Some (Ok final, calls') →
  ∃ added,
    final = commit_graph ++ added
    ∧ (length stack + length (edges added) + 1 ≤ fuel)%nat
    ∧ while_stack (length stack + length (edges added) + 1) fs repo_path
        commit_graph stack calls
      = Some (Ok final, calls').
Proof.
  revert commit_graph stack calls.
  induction fuel as [|fuel IH]; intros commit_graph stack calls Hrun; [done|].
  destruct stack as [|current stack _] using rev_ind.
  { rewrite while_stack_empty in Hrun. simplify_eq. exists [].
    rewrite app_nil_r. split; [done|]. split; [simpl; lia|done]. }
  rewrite length_app. cbn [length].
  destruct (decide (current ∈ commit_graph.*1)) as [Hin|Hin].
  { rewrite while_stack_skip in Hrun by done.
    apply IH in Hrun as (added & -> & Hle & Hrun). exists added.
    split; [done|]. split; [lia|].
    replace (length stack + 1 + length (edges added) + 1)%nat
      with (S (length stack + length (edges added) + 1)) by lia.
    by rewrite while_stack_skip. }
  destruct (commit_result fs repo_path current) as [[parents message]|e] eqn:Hr.
  - erewrite while_stack_visit in Hrun by done.
    apply IH in Hrun as (added & -> & Hle & Hrun).
    exists ((current, parents) :: added). rewrite length_app in Hle, Hrun.
    split; [by rewrite <- app_assoc|]. rewrite edges_cons_length.
    split; [lia|].
    replace (length stack + 1 + (length parents + length (edges added)) + 1)%nat
      with (S (length stack + length parents + length (edges added) + 1))
      by lia.
    by erewrite while_stack_visit.
  - by erewrite while_stack_fail in Hrun.
Qed.

(** X14: a run of [get_commit_graph] that returns a graph made exactly one
    pop for the starting identifier and one for every edge of the graph: the
    loop condition was tested (number of edges + 2) times, the last time on
    the empty stack. No smaller number of passes gives a result. *)
Theorem get_commit_graph_pass_count fuel fs repo_path start calls
    commit_graph calls' :
  get_commit_graph fuel fs repo_path start calls
  = Some (Ok commit_graph, calls') →
  (length (edges commit_graph) + 2 ≤ fuel)%nat
  ∧ get_commit_graph (length (edges commit_graph) + 2) fs repo_path start calls
    = Some (Ok commit_graph, calls')
  ∧ ∀ fuel', (fuel' < length (edges commit_graph) + 2)%nat →
      get_commit_graph fuel' fs repo_path start calls = None.
Proof.
  unfold get_commit_graph. intros Hrun.
  destruct (while_stack_passes _ _ _ _ _ _ _ _ Hrun)
    as (added & Hadded & Hle & Hexact).
  simpl in Hadded. subst added. cbn [length] in Hle, Hexact.
  replace (1 + length (edges commit_graph) + 1)%nat
    with (length (edges commit_graph) + 2)%nat in * by lia.
  split; [done|]. split; [done|].
  intros fuel' Hlt.
  destruct (while_stack fuel' fs repo_path [] [start] calls)
    as [[result calls'']|] eqn:Hless; [|done].
  exfalso.
  assert (Hsame : while_stack (length (edges commit_graph) + 2) fs repo_path []
                    [start] calls = Some (result, calls'')).
  { eapply while_stack_fuel_mono; [exact Hless|lia]. }
  rewrite Hexact in Hsame. simplify_eq.
  destruct (while_stack_passes _ _ _ _ _ _ _ _ Hless)
    as (added & Hadded & Hle' & _).
  simpl in Hadded. subst added. cbn [length] in Hle'. lia.
Qed.
End Passes.

Lemma get_commit_graph_pass_count_witness :
  get_commit_graph (H:=stored_codec) 6 DiamondRepo.fs DiamondRepo.repo_dir
    DiamondRepo.top []
  = Some (Ok [(DiamondRepo.top, [DiamondRepo.left; DiamondRepo.right]);
              (DiamondRepo.right, [DiamondRepo.base]);
              (DiamondRepo.base, []);
              (DiamondRepo.left, [DiamondRepo.base])],
          [DiamondRepo.top; DiamondRepo.right; DiamondRepo.base;
           DiamondRepo.left])
  ∧ get_commit_graph (H:=stored_codec) 5 DiamondRepo.fs DiamondRepo.repo_dir
      DiamondRepo.top [] = None.
Proof.
  assert (Hrun :
    get_commit_graph (H:=stored_codec) 9 DiamondRepo.fs DiamondRepo.repo_dir
      DiamondRepo.top []
    = Some (Ok [(DiamondRepo.top, [DiamondRepo.left; DiamondRepo.right]);
                (DiamondRepo.right, [DiamondRepo.base]);
                (DiamondRepo.base, []);
                (DiamondRepo.left, [DiamondRepo.base])],
            [DiamondRepo.top; DiamondRepo.right; DiamondRepo.base;
             DiamondRepo.left])).
  { vm_compute. reflexivity. }
  destruct (get_commit_graph_pass_count (H:=stored_codec) _ _ _ _ _ _ _ Hrun)
    as (_ & Hexact & Hless).
  split; [exact Hexact|]. apply Hless. simpl. lia.
Defined.
